(** * opencode-zh: the translation application engine of [localize.ts]

    A shallow embedding of [src/localize.ts]: the literal substitution
    engine ([escapeRegex], [applyTranslation]) and the batch applier
    ([loadTranslationFile], [processModule], the default mode of [main]),
    over a small model of the ECMAScript and Node.js facilities they call
    (strings of UTF-16 code units, [RegExp] with the [g] flag,
    [String.prototype.match], [String.prototype.replace], [Object.entries],
    [path.join], [fs]). *)

From Stdlib Require Import NArith Lia.
From stdpp Require Import base list strings gmap.

(** ** The ECMAScript side *)

Module JS.

(** A string value is a finite sequence of UTF-16 code units; the regular
    expressions of [localize.ts] carry no [u] flag, so matching works code
    unit by code unit. *)
Definition jsstring := list N.

(** Literals of the development: one code unit for each character of an
    ASCII literal. *)
Definition js (s : string) : jsstring :=
  (λ a, Ascii.N_of_ascii a) <$> String.list_ascii_of_string s.

Definition BACKSLASH : N := 92.
Definition DOLLAR : N := 36.
Definition AMPERSAND : N := 38.
Definition BACKTICK : N := 96.
Definition QUOTE : N := 39.
Definition FULLSTOP : N := 46.
Definition SLASH : N := 47.

(** [s.startsWith(p)] *)
Fixpoint startsWith (s p : jsstring) {struct p} : bool :=
  match p, s with
  | [], _ => true
  | _ :: _, [] => false
  | d :: p', c :: s' => (c =? d)%N && startsWith s' p'
  end.

(** [S.substring(from, to)] for [from <= to]. *)
Definition substring (S : jsstring) (from to : nat) : jsstring :=
  take (to - from) (drop from S).

(** Truthiness of a [string | undefined] value: [undefined] and the empty
    string are falsy. *)
Definition truthy (v : option jsstring) : bool :=
  match v with
  | Some (_ :: _) => true
  | _ => false
  end.

(** [a || b] on [string | undefined] values. *)
Definition or_else (a b : option jsstring) : option jsstring :=
  if truthy a then a else b.

(** *** Regular expressions

    The fragment of the pattern language that [localize.ts] can reach:
    terms that consume exactly one code unit each. *)

Inductive atom : Type :=
| Char (c : N)          (* a PatternCharacter, or an IdentityEscape [\c] *)
| Dot                   (* [.] without the [s] flag *)
| Class (cs : list N).  (* a positive class [[...]] of single code units *)

Definition regex := list atom.

(** SyntaxCharacter :: one of [^ $ \ . * + ? ( ) [ ] { } |] *)
Definition SyntaxCharacters : list N := js "^$\.*+?()[]{}|".

Definition isSyntaxCharacter (c : N) : bool :=
  existsb (N.eqb c) SyntaxCharacters.

(** LineTerminator :: LF, CR, LS, PS *)
Definition isLineTerminator (c : N) : bool :=
  existsb (N.eqb c) [10; 13; 8232; 8233]%N.

Definition atomMatches (a : atom) (c : N) : bool :=
  match a with
  | Char d => (c =? d)%N
  | Dot => negb (isLineTerminator c)
  | Class cs => existsb (N.eqb c) cs
  end.

(** The matcher of a pattern at the start of [s]: the number of code units
    the match consumes, if there is one. *)
Fixpoint matchHere (re : regex) (s : jsstring) : option nat :=
  match re with
  | [] => Some 0
  | a :: re' =>
      match s with
      | [] => None
      | c :: s' => if atomMatches a c then S <$> matchHere re' s' else None
      end
  end.

(** [new RegExp(pattern, "g")] on the modelled fragment: pattern
    characters, [\] followed by a syntax character, and [.]. [None] stands
    for every other pattern (a SyntaxError, or a construct outside the
    fragment). *)
Fixpoint RegExp_g (pattern : jsstring) : option regex :=
  match pattern with
  | [] => Some []
  | c :: p' =>
      if (c =? BACKSLASH)%N then
        match p' with
        | d :: p'' =>
            if isSyntaxCharacter d then cons (Char d) <$> RegExp_g p'' else None
        | [] => None
        end
      else if (c =? FULLSTOP)%N then cons Dot <$> RegExp_g p'
      else if isSyntaxCharacter c then None
      else cons (Char c) <$> RegExp_g p'
  end.

(** The loop shared by [RegExp.prototype[Symbol.match]] and
    [RegExp.prototype[Symbol.replace]] for a global, non-sticky,
    non-unicode expression: starting from [lastIndex = 0], find the first
    index at or after [lastIndex] where the matcher succeeds, record
    (index, length), set [lastIndex] to the end of the match, and advance
    it by one more code unit after an empty match; stop when no index up to
    the length of the string matches.

    [scan re i s skip] runs it on the suffix [s] that starts at index [i],
    with [lastIndex = i + skip]. *)
Fixpoint scan (re : regex) (i : nat) (s : jsstring) (skip : nat)
  : list (nat * nat) :=
  match skip with
  | S k =>
      match s with
      | [] => []
      | _ :: s' => scan re (S i) s' k
      end
  | O =>
      match matchHere re s with
      | Some len =>
          (i, len) ::
          match s with
          | [] => []
          | _ :: s' => scan re (S i) s' (pred len)
          end
      | None =>
          match s with
          | [] => []
          | _ :: s' => scan re (S i) s' 0
          end
      end
  end.

Definition matchAll (re : regex) (S : jsstring) : list (nat * nat) :=
  scan re 0 S 0.

(** [S.match(re)] with the [g] flag: [null] when nothing matches, otherwise
    the array of the matched substrings. *)
Definition String_match (S : jsstring) (re : regex) : option (list jsstring) :=
  match matchAll re S with
  | [] => None
  | ms => Some ((λ m, substring S m.1 (m.1 + m.2)) <$> ms)
  end.

Definition isDigit (c : N) : bool := (48 <=? c)%N && (c <=? 57)%N.
Definition digitValue (c : N) : nat := N.to_nat (c - 48).

Definition capture (captures : list (option jsstring)) (index : nat) : jsstring :=
  default [] (mjoin (captures !! pred index)).

(** GetSubstitution(matched, str, position, captures, undefined,
    replacementTemplate): the expansion of the [$] forms of a replacement
    string. No named groups exist in the fragment, so [$<] is literal. *)
Fixpoint GetSubstitution (matched S : jsstring) (position : nat)
    (captures : list (option jsstring)) (template : jsstring) : jsstring :=
  match template with
  | [] => []
  | c :: t =>
      if negb (c =? DOLLAR)%N then c :: GetSubstitution matched S position captures t
      else
        match t with
        | [] => [DOLLAR]
        | d :: t' =>
            if (d =? DOLLAR)%N then
              DOLLAR :: GetSubstitution matched S position captures t'
            else if (d =? AMPERSAND)%N then
              matched ++ GetSubstitution matched S position captures t'
            else if (d =? BACKTICK)%N then
              take position S ++ GetSubstitution matched S position captures t'
            else if (d =? QUOTE)%N then
              drop (position + length matched) S
                ++ GetSubstitution matched S position captures t'
            else if isDigit d then
              let one :=
                if bool_decide (1 ≤ digitValue d ≤ length captures)
                then capture captures (digitValue d)
                       ++ GetSubstitution matched S position captures t'
                else DOLLAR :: d :: GetSubstitution matched S position captures t' in
              match t' with
              | e :: t'' =>
                  if isDigit e then
                    let index := 10 * digitValue d + digitValue e in
                    if bool_decide (length captures < index) then one
                    else if bool_decide (1 ≤ index)
                    then capture captures index
                           ++ GetSubstitution matched S position captures t''
                    else DOLLAR :: d :: e
                           :: GetSubstitution matched S position captures t''
                  else one
              | [] => one
              end
            else DOLLAR :: GetSubstitution matched S position captures t
        end
  end.

(** The assembly step of [RegExp.prototype[Symbol.replace]]: the text
    between the matches is kept, each match is replaced by the expansion of
    the template. The expressions of the fragment have no capture groups. *)
Fixpoint assemble (S template : jsstring) (results : list (nat * nat))
    (nextSourcePosition : nat) : jsstring :=
  match results with
  | [] => drop nextSourcePosition S
  | (position, len) :: results' =>
      if bool_decide (nextSourcePosition ≤ position) then
        substring S nextSourcePosition position
          ++ GetSubstitution (substring S position (position + len)) S position [] template
          ++ assemble S template results' (position + len)
      else assemble S template results' nextSourcePosition
  end.

(** [S.replace(re, template)] with the [g] flag and a string template. *)
Definition String_replace (S : jsstring) (re : regex) (template : jsstring)
  : jsstring :=
  assemble S template (matchAll re S) 0.

(** *** Objects

    An ordinary object whose values are strings, as [JSON.parse] builds
    it: the own properties in creation order, every key once. *)
Definition jsobject := list (jsstring * jsstring).

Fixpoint decimalValue (acc : N) (k : jsstring) : option N :=
  match k with
  | [] => Some acc
  | c :: k' => if isDigit c then decimalValue (10 * acc + (c - 48)) k' else None
  end.

(** An array index: the canonical decimal form of an integer below
    [2^32 - 1]. *)
Definition arrayIndex (k : jsstring) : option N :=
  match k with
  | [] => None
  | c :: k' =>
      if (c =? 48)%N && negb (bool_decide (k' = [])) then None
      else n ← decimalValue 0 k; if (n <? 4294967295)%N then Some n else None
  end.

Fixpoint insertIndexed (e : N * (jsstring * jsstring))
    (l : list (N * (jsstring * jsstring))) : list (N * (jsstring * jsstring)) :=
  match l with
  | [] => [e]
  | x :: l' => if (e.1 <=? x.1)%N then e :: l else x :: insertIndexed e l'
  end.

(** [Object.entries(o)]: the properties whose key is an array index come
    first, in ascending numeric order, then the other keys in creation
    order (OrdinaryOwnPropertyKeys). *)
Definition Object_entries (o : jsobject) : list (jsstring * jsstring) :=
  (snd <$> foldr insertIndexed [] (omap (λ p, (λ n, (n, p)) <$> arrayIndex p.1) o))
    ++ filter (λ p, arrayIndex p.1 = None) o.

(** *** Paths (the POSIX flavour of Node's [path]) *)

Fixpoint split (sep : N) (s : jsstring) : list jsstring :=
  match s with
  | [] => [[]]
  | c :: s' =>
      if (c =? sep)%N then [] :: split sep s'
      else match split sep s' with
           | seg :: segs => (c :: seg) :: segs
           | [] => [[c]]
           end
  end.

Definition joinWith (sep : N) (segs : list jsstring) : jsstring :=
  match segs with
  | [] => []
  | x :: xs => x ++ flat_map (cons sep) xs
  end.

(** [normalizeString]: the segments of the path are walked from the left
    onto a stack (kept reversed in [res]); empty segments and [.] are
    dropped, [..] removes the last segment unless there is none or it is
    [..] itself, in which case it is kept only when [allowAboveRoot]. *)
Fixpoint normalizeSegments (allowAboveRoot : bool) (res segs : list jsstring)
  : list jsstring :=
  match segs with
  | [] => rev res
  | seg :: segs' =>
      if bool_decide (seg = []) || bool_decide (seg = js ".") then
        normalizeSegments allowAboveRoot res segs'
      else if bool_decide (seg = js "..") then
        match res with
        | last :: res' =>
            if bool_decide (last = js "..") then
              normalizeSegments allowAboveRoot
                (if allowAboveRoot then seg :: res else res) segs'
            else normalizeSegments allowAboveRoot res' segs'
        | [] =>
            normalizeSegments allowAboveRoot
              (if allowAboveRoot then [seg] else []) segs'
        end
      else normalizeSegments allowAboveRoot (seg :: res) segs'
  end.

Definition normalizeString (p : jsstring) (allowAboveRoot : bool) : jsstring :=
  joinWith SLASH (normalizeSegments allowAboveRoot [] (split SLASH p)).

(** [path.normalize(p)] *)
Definition path_normalize (p : jsstring) : jsstring :=
  match p with
  | [] => js "."
  | c :: _ =>
      let isAbsolute := (c =? SLASH)%N in
      let trailingSeparator := bool_decide (last p = Some SLASH) in
      let q := normalizeString p (negb isAbsolute) in
      match q with
      | [] => if isAbsolute then js "/" else if trailingSeparator then js "./" else js "."
      | _ =>
          let q' := if trailingSeparator then q ++ [SLASH] else q in
          if isAbsolute then SLASH :: q' else q'
      end
  end.

(** [path.join(...args)]: the non-empty arguments are joined with [/] and
    the result is normalized. *)
Definition path_join (args : list jsstring) : jsstring :=
  match filter (λ a, a ≠ []) args with
  | [] => js "."
  | parts => path_normalize (joinWith SLASH parts)
  end.

End JS.

Import JS.

(** ** The Node.js side: the file system, the console, exceptions *)

Module Node.

Inductive node : Type :=
| File (content : jsstring)
| Directory.

(** What [console.log] prints between the version check and the summary,
    one constructor for each call site (or run of adjacent call sites) with
    the values it interpolates. *)
Inductive line : Type :=
| TranslationFileNotFound (relativePath : jsstring)
| OpenCodeVersion (currentVersion : jsstring)
| TranslationsDirectory (translationsDir : jsstring)
| TranslationConfigVersion (version : jsstring)
| VersionMismatch (currentVersion version : jsstring)
| VersionMatch (currentVersion : jsstring)
| ApplyingTranslations
| Category (category : jsstring)
| Skipped (file reason : jsstring)
| Replaced (file : jsstring) (replacements : nat)
| NoMatches (file : jsstring)
| Blank
| Summary (filesProcessed filesSkipped totalReplacements : nat)
| LocalizationComplete.

(** The state a run acts on: the files by path, the journal of the
    [fs.writeFileSync] calls made so far (oldest first), and the console. *)
Record world : Type := World {
  files : gmap jsstring node;
  writes : list (jsstring * jsstring);
  console : list line
}.

Inductive exn : Type :=
| TranslationsDirectoryNotFound (translationsDir : jsstring)
| ModuleConfigNotFound (configPath : jsstring)
| JSONSyntaxError
| RegExpSyntaxError
| ENOENT (p : jsstring)
| EISDIR (p : jsstring).

Inductive result (A : Type) : Type :=
| Return (a : A) (w : world)
| Throw (e : exn) (w : world).
Arguments Return {A} a w.
Arguments Throw {A} e w.

Definition IO (A : Type) : Type := world → result A.

Definition ret {A} (a : A) : IO A := λ w, Return a w.
Definition throw {A} (e : exn) : IO A := λ w, Throw e w.
Definition bind {A B} (c : IO A) (k : A → IO B) : IO B :=
  λ w, match c w with
       | Return a w' => k a w'
       | Throw e w' => Throw e w'
       end.
(** [try { c } catch { h }] *)
Definition try_catch {A} (c : IO A) (h : IO A) : IO A :=
  λ w, match c w with
       | Return a w' => Return a w'
       | Throw _ w' => h w'
       end.

Global Instance IO_ret : MRet IO := @ret.
Global Instance IO_bind : MBind IO := λ A B k c, bind c k.

(** [fs.existsSync(p)] *)
Definition existsSync (p : jsstring) : IO bool :=
  λ w, Return (bool_decide (is_Some (files w !! p))) w.

(** [fs.readFileSync(p, "utf-8")] *)
Definition readFileSync (p : jsstring) : IO jsstring :=
  λ w, match files w !! p with
       | Some (File content) => Return content w
       | Some Directory => Throw (EISDIR p) w
       | None => Throw (ENOENT p) w
       end.

(** [fs.writeFileSync(p, data)] on a path whose directory exists. *)
Definition writeFileSync (p data : jsstring) : IO unit :=
  λ w, match files w !! p with
       | Some Directory => Throw (EISDIR p) w
       | _ => Return tt {| files := <[p := File data]> (files w);
                           writes := writes w ++ [(p, data)];
                           console := console w |}
       end.

(** [console.log] *)
Definition console_log (l : line) : IO unit :=
  λ w, Return tt {| files := files w; writes := writes w;
                    console := console w ++ [l] |}.

End Node.

Import Node.

(** ** [localize.ts] *)

Module TranslationConfig.
Record t : Type := Build {
  file : option jsstring;
  description : option jsstring;
  replacements : jsobject
}.
End TranslationConfig.

Module Modules.
Record t : Type := Build {
  dialogs : option (list jsstring);
  components : option (list jsstring);
  routes : option (list jsstring);
  common : option (list jsstring);
  root : option (list jsstring)
}.
End Modules.

Module ModuleConfig.
Record t : Type := Build {
  name : jsstring;
  version : jsstring;
  description : jsstring;
  modules : Modules.t
}.
End ModuleConfig.

(** The object [applyTranslation] returns. *)
Module ApplicationResult.
Record t : Type := Build {
  file : jsstring;
  replacements : nat;
  skipped : bool;
  reason : option jsstring
}.
End ApplicationResult.

(** The [stats] object of [main] (its [errors] array is never written). *)
Module Stats.
Record t : Type := Build {
  filesProcessed : nat;
  filesSkipped : nat;
  totalReplacements : nat
}.
End Stats.

(** [function escapeRegex(str)]:
    [str.replace(/[.*+?^${}()|[\]\\]/g, "\\$&")] *)
Definition escapeRegex (str : jsstring) : jsstring :=
  String_replace str [Class (js ".*+?^${}()|[]\")] (js "\$&").

(** One turn of the loop of [applyTranslation] (lines 125-136) on the
    running [content] and [totalReplacements]. *)
Definition replaceStep (entry : jsstring * jsstring)
    (acc : jsstring * nat) : exn + (jsstring * nat) :=
  let '(original, translated) := entry in
  let '(content, totalReplacements) := acc in
  if bool_decide (original = translated) then inr acc
  else
    let escapedOriginal := escapeRegex original in
    match RegExp_g escapedOriginal with
    | None => inl RegExpSyntaxError
    | Some regex =>
        match String_match content regex with
        | Some matches =>
            inr (String_replace content regex translated,
                 totalReplacements + length matches)
        | None => inr acc
        end
    end.

(** [for (const [original, translated] of entries) { ... }] *)
Fixpoint replaceLoop (entries : list (jsstring * jsstring))
    (acc : jsstring * nat) : exn + (jsstring * nat) :=
  match entries with
  | [] => inr acc
  | entry :: entries' =>
      match replaceStep entry acc with
      | inl e => inl e
      | inr acc' => replaceLoop entries' acc'
      end
  end.

(** Lines 109-116: the path of the target file inside the tree. *)
Definition resolvePath (opencodeDir targetFile : jsstring) : jsstring :=
  let relativePath :=
    if startsWith targetFile (js "src/") then
      path_join [js "packages"; js "opencode"; targetFile]
    else if negb (startsWith targetFile (js "packages/")) then
      path_join [js "packages"; js "opencode"; targetFile]
    else targetFile in
  path_join [opencodeDir; relativePath].

(** [function applyTranslation(opencodeDir, config, relativeFilePath?)] *)
Definition applyTranslation (opencodeDir : jsstring) (config : TranslationConfig.t)
    (relativeFilePath : option jsstring) : IO ApplicationResult.t :=
  let targetFile := or_else relativeFilePath (TranslationConfig.file config) in
  match targetFile with
  | None | Some [] =>
      ret (ApplicationResult.Build (js "unknown") 0 true (Some (js "No file specified")))
  | Some targetFile =>
      let filePath := resolvePath opencodeDir targetFile in
      found ← existsSync filePath;
      if negb found then
        ret (ApplicationResult.Build targetFile 0 true (Some (js "File not found")))
      else
        content ← readFileSync filePath;
        match replaceLoop (Object_entries (TranslationConfig.replacements config))
                (content, 0) with
        | inl e => throw e
        | inr (content, totalReplacements) =>
            (if bool_decide (0 < totalReplacements)
             then writeFileSync filePath content else ret tt);;
            ret (ApplicationResult.Build targetFile totalReplacements false None)
        end
  end.

(** What the run reads from its environment and cannot compute itself:
    the directory of the script ([__dirname]) and the results of
    [JSON.parse] on the three kinds of documents ([None]: a SyntaxError). *)
Section Run.

Variable scriptDir : jsstring.
Variable parseTranslationConfig : jsstring → option TranslationConfig.t.
Variable parseModuleConfig : jsstring → option ModuleConfig.t.
Variable parsePackageVersion : jsstring → option jsstring.

(** [function getTranslationsDir()] *)
Definition getTranslationsDir : IO jsstring :=
  let translationsDir := path_join [scriptDir; js "translations"] in
  found ← existsSync translationsDir;
  if (found : bool) then ret translationsDir
  else throw (TranslationsDirectoryNotFound translationsDir).

(** [function loadModuleConfig(translationsDir)] *)
Definition loadModuleConfig (translationsDir : jsstring) : IO ModuleConfig.t :=
  let configPath := path_join [translationsDir; js "config.json"] in
  found ← existsSync configPath;
  if negb found then throw (ModuleConfigNotFound configPath)
  else
    text ← readFileSync configPath;
    match parseModuleConfig text with
    | Some config => ret config
    | None => throw JSONSyntaxError
    end.

(** [function loadTranslationFile(translationsDir, relativePath)];
    [None] is the [null] it returns for a missing file. *)
Definition loadTranslationFile (translationsDir relativePath : jsstring)
  : IO (option TranslationConfig.t) :=
  let filePath := path_join [translationsDir; relativePath] in
  found ← existsSync filePath;
  if negb found then
    console_log (TranslationFileNotFound relativePath);;
    ret None
  else
    text ← readFileSync filePath;
    match parseTranslationConfig text with
    | Some config => ret (Some config)
    | None => throw JSONSyntaxError
    end.

(** [function getOpenCodeVersion(opencodeDir)] *)
Definition getOpenCodeVersion (opencodeDir : jsstring) : IO jsstring :=
  try_catch
    (let packageJsonPath :=
       path_join [opencodeDir; js "packages"; js "opencode"; js "package.json"] in
     found ← existsSync packageJsonPath;
     if (found : bool) then
       text ← readFileSync packageJsonPath;
       match parsePackageVersion text with
       | Some version => ret version
       | None => throw JSONSyntaxError
       end
     else ret (js "unknown"))
    (ret (js "unknown")).

(** The body of the loop of [processModule] (lines 514-532) for one
    [file], on the [stats] of [main]. *)
Definition processFile (opencodeDir translationsDir : jsstring)
    (stats : Stats.t) (file : jsstring) : IO Stats.t :=
  config ← loadTranslationFile translationsDir file;
  match config with
  | None =>
      ret (Stats.Build (Stats.filesProcessed stats)
                       (S (Stats.filesSkipped stats))
                       (Stats.totalReplacements stats))
  | Some config =>
      result ← applyTranslation opencodeDir config None;
      if ApplicationResult.skipped result then
        console_log (Skipped (ApplicationResult.file result)
                       (default [] (ApplicationResult.reason result)));;
        ret (Stats.Build (Stats.filesProcessed stats)
                         (S (Stats.filesSkipped stats))
                         (Stats.totalReplacements stats))
      else if bool_decide (0 < ApplicationResult.replacements result) then
        console_log (Replaced (ApplicationResult.file result)
                       (ApplicationResult.replacements result));;
        ret (Stats.Build (S (Stats.filesProcessed stats))
                         (Stats.filesSkipped stats)
                         (Stats.totalReplacements stats
                          + ApplicationResult.replacements result))
      else
        console_log (NoMatches (ApplicationResult.file result));;
        ret (Stats.Build (S (Stats.filesProcessed stats))
                         (Stats.filesSkipped stats)
                         (Stats.totalReplacements stats))
  end.

Fixpoint processFiles (opencodeDir translationsDir : jsstring)
    (files : list jsstring) (stats : Stats.t) : IO Stats.t :=
  match files with
  | [] => ret stats
  | file :: files' =>
      stats' ← processFile opencodeDir translationsDir stats file;
      processFiles opencodeDir translationsDir files' stats'
  end.

(** [const processModule = (category, files) => { ... }] *)
Definition processModule (opencodeDir translationsDir : jsstring)
    (category : jsstring) (files : list jsstring) (stats : Stats.t) : IO Stats.t :=
  console_log (Category category);;
  stats' ← processFiles opencodeDir translationsDir files stats;
  console_log Blank;;
  ret stats'.

(** [if (modules.c) { processModule("c", modules.c) }] *)
Definition processCategory (opencodeDir translationsDir : jsstring)
    (category : jsstring) (files : option (list jsstring)) (stats : Stats.t)
  : IO Stats.t :=
  match files with
  | Some files => processModule opencodeDir translationsDir category files stats
  | None => ret stats
  end.

(** [main] in its default mode (neither [--install] nor [--upgrade]), from
    the version check to the summary (lines 484-560), for the directory
    [opencodeDir] that [getOpenCodeDir] found. *)
Definition main (opencodeDir : jsstring) : IO Stats.t :=
  currentVersion ← getOpenCodeVersion opencodeDir;
  console_log (OpenCodeVersion currentVersion);;
  translationsDir ← getTranslationsDir;
  console_log (TranslationsDirectory translationsDir);;
  moduleConfig ← loadModuleConfig translationsDir;
  console_log (TranslationConfigVersion (ModuleConfig.version moduleConfig));;
  (if bool_decide (currentVersion ≠ ModuleConfig.version moduleConfig)
   then console_log (VersionMismatch currentVersion (ModuleConfig.version moduleConfig))
   else console_log (VersionMatch currentVersion));;
  console_log ApplyingTranslations;;
  let stats := Stats.Build 0 0 0 in
  let modules := ModuleConfig.modules moduleConfig in
  stats ← processCategory opencodeDir translationsDir (js "root") (Modules.root modules) stats;
  stats ← processCategory opencodeDir translationsDir (js "dialogs") (Modules.dialogs modules) stats;
  stats ← processCategory opencodeDir translationsDir (js "components") (Modules.components modules) stats;
  stats ← processCategory opencodeDir translationsDir (js "routes") (Modules.routes modules) stats;
  stats ← processCategory opencodeDir translationsDir (js "common") (Modules.common modules) stats;
  console_log (Summary (Stats.filesProcessed stats) (Stats.filesSkipped stats)
                 (Stats.totalReplacements stats));;
  console_log LocalizationComplete;;
  ret stats.

End Run.

(** ** Properties of the ECMAScript model *)

Section Matching.

Implicit Types (re : regex) (s S p o t : jsstring).

Lemma matchHere_length re s n :
  matchHere re s = Some n → n = length re ∧ n ≤ length s.
Proof.
  revert s n. induction re as [|a re IH]; intros s n; simpl.
  - intros [= <-]. lia.
  - destruct s as [|c s]; [done|].
    destruct (atomMatches a c); [|done].
    destruct (matchHere re s) as [m|] eqn:E; simpl; [|done].
    intros [= <-]. destruct (IH _ _ E). simpl. lia.
Qed.

Lemma startsWith_prefix s p : startsWith s p = true ↔ p `prefix_of` s.
Proof.
  revert s. induction p as [|d p IH]; intros s; simpl.
  - split; [intros _; apply prefix_nil | done].
  - destruct s as [|c s].
    + split; [done|]. intros [k Hk]. discriminate.
    + rewrite andb_true_iff, N.eqb_eq, IH. split.
      * intros [-> H]. by apply prefix_cons.
      * intros [k Hk]. simplify_eq/=. split; [done|]. by exists k.
Qed.

(** A pattern made of pattern characters only matches exactly where the
    string continues with these code units. *)
Lemma matchHere_literal o s :
  matchHere (Char <$> o) s = if startsWith s o then Some (length o) else None.
Proof.
  revert s. induction o as [|d o IH]; intros s; simpl; [by destruct s|].
  destruct s as [|c s]; [done|].
  destruct (c =? d)%N; simpl; [|done].
  rewrite IH. by destruct (startsWith s o).
Qed.

Lemma scan_position re i s skip pos len :
  (pos, len) ∈ scan re i s skip →
  i + skip ≤ pos ∧ matchHere re (drop (pos - i) s) = Some len.
Proof.
  revert i skip. induction s as [|c s IH]; intros i skip; simpl.
  - destruct skip; [|by intros ?%elem_of_nil].
    destruct (matchHere re []) eqn:E; [|by intros ?%elem_of_nil].
    intros [= -> ->]%list_elem_of_singleton.
    rewrite Nat.sub_diag. simpl. split; [lia | done].
  - destruct skip as [|k].
    + destruct (matchHere re (c :: s)) as [n|] eqn:E.
      * intros [[= -> ->] | H]%elem_of_cons.
        { rewrite Nat.sub_diag. simpl. split; [lia | done]. }
        apply IH in H as [H1 H2]. split; [lia|].
        replace (pos - i) with (S (pos - S i)) by lia. done.
      * intros H. apply IH in H as [H1 H2]. split; [lia|].
        replace (pos - i) with (S (pos - S i)) by lia. done.
    + intros H. apply IH in H as [H1 H2]. split; [lia|].
      replace (pos - i) with (S (pos - S i)) by lia. done.
Qed.

(** Nothing is reported exactly when the matcher fails at every index. *)
Lemma scan_nil re i s :
  scan re i s 0 = [] ↔ ∀ k, k ≤ length s → matchHere re (drop k s) = None.
Proof.
  revert i. induction s as [|c s IH]; intros i; simpl.
  - destruct (matchHere re []) eqn:E; split; try done.
    + intros H. specialize (H 0 (Nat.le_refl _)). simpl in H. congruence.
    + intros _ k _. by destruct k.
  - destruct (matchHere re (c :: s)) eqn:E.
    + split; [done|]. intros H. specialize (H 0 ltac:(lia)). simpl in H. congruence.
    + rewrite IH. split.
      * intros H [|k] Hk; simpl; [done|]. apply H. lia.
      * intros H k Hk. apply (H (S k)). lia.
Qed.

Lemma substring_app_drop S a b : a ≤ b → substring S a b ++ drop b S = drop a S.
Proof.
  intros Hab. unfold substring.
  replace (drop b S) with (drop (b - a) (drop a S)).
  - apply take_drop.
  - rewrite drop_drop. f_equal. lia.
Qed.

Lemma substring_split S a b c :
  a ≤ b → b ≤ c → substring S a c = substring S a b ++ substring S b c.
Proof.
  intros Hab Hbc. unfold substring.
  replace (c - a) with ((b - a) + (c - b)) by lia.
  rewrite <- take_take_drop. do 2 f_equal. rewrite drop_drop. f_equal. lia.
Qed.

Lemma substring_suffix pre s n :
  substring (pre ++ s) (length pre) (length pre + n) = take n s.
Proof.
  unfold substring. rewrite drop_app_length. f_equal. lia.
Qed.

(** The text in front of the first reported match is copied. *)
Lemma assemble_gap S t results next m :
  next ≤ m → Forall (λ r, m ≤ r.1) results →
  assemble S t results next = substring S next m ++ assemble S t results m.
Proof.
  intros Hnm Hres. destruct results as [|[pos len] results]; simpl.
  - by rewrite substring_app_drop.
  - apply Forall_cons in Hres as [Hpos _]. simpl in Hpos.
    rewrite !bool_decide_eq_true_2 by lia.
    rewrite (substring_split S next m pos) by lia. by rewrite <- app_assoc.
Qed.

Lemma scan_Forall_ge re i s skip :
  Forall (λ r, i + skip ≤ r.1) (scan re i s skip).
Proof.
  apply Forall_forall. intros [pos len] H%scan_position. simpl. lia.
Qed.

(** [String_replace] as one pass over the string: [g] is what a match is
    replaced with. *)
Fixpoint substitute (re : regex) (g : jsstring → jsstring) (s : jsstring)
    (skip : nat) : jsstring :=
  match skip with
  | S k =>
      match s with
      | [] => []
      | _ :: s' => substitute re g s' k
      end
  | O =>
      match matchHere re s with
      | Some len =>
          g (take len s) ++
          match s with
          | [] => []
          | c :: s' =>
              (if len is O then [c] else []) ++ substitute re g s' (pred len)
          end
      | None =>
          match s with
          | [] => []
          | c :: s' => c :: substitute re g s' 0
          end
      end
  end.

Lemma assemble_scan re g t s : ∀ pre skip,
  (∀ m S pos, GetSubstitution m S pos [] t = g m) →
  skip ≤ length s →
  assemble (pre ++ s) t (scan re (length pre) s skip) (length pre + skip)
  = substitute re g s skip.
Proof.
  induction s as [|c s IH]; intros pre skip Hg Hskip; simpl in *.
  - assert (skip = 0) as -> by lia. simpl.
    destruct (matchHere re []) as [len|] eqn:E; simpl.
    + apply matchHere_length in E as [_ E]. simpl in E.
      assert (len = 0) as -> by lia.
      rewrite bool_decide_eq_true_2 by lia.
      rewrite Hg. unfold substring.
      rewrite !Nat.add_0_r, Nat.sub_diag, drop_app_length. simpl.
      by rewrite app_nil_r.
    + rewrite Nat.add_0_r, app_nil_r. by rewrite drop_all.
  - assert (Hpre : pre ++ c :: s = (pre ++ [c]) ++ s) by by rewrite <- app_assoc.
    assert (Hlen : length (pre ++ [c]) = S (length pre))
      by (rewrite length_app; simpl; lia).
    assert (Hc : substring (pre ++ c :: s) (length pre) (S (length pre)) = [c]).
    { replace (S (length pre)) with (length pre + 1) by lia.
      by rewrite substring_suffix. }
    destruct skip as [|k]; simpl.
    + destruct (matchHere re (c :: s)) as [len|] eqn:E; simpl.
      * rewrite bool_decide_eq_true_2 by lia.
        rewrite Hg, Nat.add_0_r. unfold substring at 1.
        rewrite Nat.sub_diag. simpl. rewrite substring_suffix. f_equal.
        apply matchHere_length in E as [_ E]. simpl in E.
        destruct len as [|l]; simpl.
        -- rewrite (assemble_gap _ _ _ _ (S (length pre))); [|lia|].
           2:{ eapply Forall_impl; [apply scan_Forall_ge|]. simpl. intros; lia. }
           rewrite Nat.add_0_r, Hc. simpl. f_equal.
           rewrite Hpre, <- Hlen, <- (IH (pre ++ [c]) 0) by (done || lia).
           by rewrite Nat.add_0_r.
        -- rewrite Hpre, <- Hlen, <- (IH (pre ++ [c]) l) by (done || lia).
           f_equal. rewrite Hlen. lia.
      * rewrite Nat.add_0_r.
        rewrite (assemble_gap _ _ _ _ (S (length pre))); [|lia|].
        2:{ eapply Forall_impl; [apply scan_Forall_ge|]. simpl. intros; lia. }
        rewrite Hc. simpl. f_equal.
        rewrite Hpre, <- Hlen, <- (IH (pre ++ [c]) 0) by (done || lia).
        by rewrite Nat.add_0_r.
    + rewrite Hpre, <- Hlen, <- (IH (pre ++ [c]) k) by (done || lia).
      f_equal. rewrite Hlen. lia.
Qed.

Lemma String_replace_substitute re g t S :
  (∀ m S' pos, GetSubstitution m S' pos [] t = g m) →
  String_replace S re t = substitute re g S 0.
Proof.
  intros Hg. unfold String_replace, matchAll.
  by rewrite <- (assemble_scan re g t S [] 0 Hg) by lia.
Qed.

End Matching.

(** ** [escapeRegex] and the expression built from its result *)

(** What [escapeRegex] does to one code unit. *)
Definition escapeUnit (c : N) : jsstring :=
  if isSyntaxCharacter c then [BACKSLASH; c] else [c].

Section Escaping.

Implicit Types (s o t : jsstring) (c : N).

(** The class in [escapeRegex] lists exactly the syntax characters. *)
Lemma escapeRegex_class c :
  existsb (N.eqb c) (js ".*+?^${}()|[]\") = isSyntaxCharacter c.
Proof.
  unfold isSyntaxCharacter.
  change (js ".*+?^${}()|[]\")
    with [46; 42; 43; 63; 94; 36; 123; 125; 40; 41; 124; 91; 93; 92]%N.
  change SyntaxCharacters
    with [94; 36; 92; 46; 42; 43; 63; 40; 41; 91; 93; 123; 125; 124]%N.
  simpl.
  repeat match goal with
         | |- context [(c =? ?k)%N] => destruct (N.eqb_spec c k); [by subst|]
         end.
  done.
Qed.

Lemma substitute_class cs g s :
  substitute [Class cs] g s 0
  = flat_map (λ c, if existsb (N.eqb c) cs then g [c] else [c]) s.
Proof.
  induction s as [|c s IH]; [done|].
  cbn [substitute matchHere atomMatches flat_map].
  destruct (existsb (N.eqb c) cs); cbn; by rewrite IH.
Qed.

Lemma escapeRegex_units s : escapeRegex s = flat_map escapeUnit s.
Proof.
  unfold escapeRegex.
  rewrite (String_replace_substitute _ (λ m, BACKSLASH :: m ++ [])) by done.
  rewrite substitute_class. apply flat_map_ext. intros c.
  by rewrite escapeRegex_class.
Qed.

Lemma not_syntax_character c :
  isSyntaxCharacter c = false → c ≠ BACKSLASH ∧ c ≠ FULLSTOP.
Proof. intros H. split; intros ->; discriminate. Qed.

(** The expression compiled from an escaped fragment is the fragment
    itself, code unit by code unit: no [Dot], no class, no failure. *)
Lemma RegExp_g_escapeRegex o : RegExp_g (escapeRegex o) = Some (Char <$> o).
Proof.
  rewrite escapeRegex_units.
  unfold escapeUnit.
  induction o as [|c o IH]; [done|].
  simpl. destruct (isSyntaxCharacter c) eqn:E; simpl.
  - rewrite E, IH. done.
  - destruct (not_syntax_character c E) as [H1 H2].
    rewrite (proj2 (N.eqb_neq c BACKSLASH) H1), (proj2 (N.eqb_neq c FULLSTOP) H2), E, IH.
    done.
Qed.

End Escaping.

(** ** Literal replacement, in the words of the specification *)

(** [s.includes(o)]: the fragment occurs somewhere in the string. *)
Fixpoint includes (s o : jsstring) : bool :=
  startsWith s o ||
  match s with
  | [] => false
  | _ :: s' => includes s' o
  end.

Definition occursIn (o s : jsstring) : Prop := ∃ pre post, s = pre ++ o ++ post.

(** "Every non-overlapping occurrence of the original fragment is
    replaced, left to right", for a non-empty fragment:
    [ReplacesAll o t s s' n] reads [s'] is [s] with these [n] occurrences
    of [o] replaced by [t]. *)
Inductive ReplacesAll (o t : jsstring) : jsstring → jsstring → nat → Prop :=
| ReplacesAll_end :
    ReplacesAll o t [] [] 0
| ReplacesAll_hit rest out n :
    ReplacesAll o t rest out n →
    ReplacesAll o t (o ++ rest) (t ++ out) (S n)
| ReplacesAll_miss c s out n :
    ¬ o `prefix_of` (c :: s) →
    ReplacesAll o t s out n →
    ReplacesAll o t (c :: s) (c :: out) n.

(** A replacement string on which [GetSubstitution] has nothing to expand
    when there are no capture groups: no [$] is followed by [$], [&],
    a backtick or a quote. *)
Fixpoint inert (t : jsstring) : bool :=
  match t with
  | [] => true
  | c :: t' =>
      (negb (c =? DOLLAR)%N
       || match t' with
          | [] => true
          | d :: _ => negb (existsb (N.eqb d) [DOLLAR; AMPERSAND; BACKTICK; QUOTE])
          end)
      && inert t'
  end.

Section Literal.

Implicit Types (s o t pre post : jsstring) (c : N).

Lemma includes_occursIn s o : includes s o = true ↔ occursIn o s.
Proof.
  induction s as [|c s IH]; simpl.
  - rewrite orb_false_r, startsWith_prefix. split.
    + intros [k ->]. by exists [], k.
    + intros (pre & post & H). symmetry in H.
      apply app_eq_nil in H as [-> [-> ->]%app_eq_nil]. done.
  - rewrite orb_true_iff, startsWith_prefix, IH. split.
    + intros [[k ->] | (pre & post & ->)].
      * by exists [], k.
      * by exists (c :: pre), post.
    + intros ([|c' pre] & post & H); simpl in H.
      * left. by exists post.
      * right. simplify_eq. by exists pre, post.
Qed.

Lemma not_includes_drop s o k : includes s o = false → startsWith (drop k s) o = false.
Proof.
  revert k. induction s as [|c s IH]; intros k; simpl.
  - rewrite orb_false_r. by destruct k.
  - intros [H1 H2]%orb_false_iff. destruct k; simpl; [done|]. by apply IH.
Qed.

Lemma includes_drop s o :
  includes s o = true → ∃ k, k ≤ length s ∧ startsWith (drop k s) o = true.
Proof.
  induction s as [|c s IH]; simpl.
  - rewrite orb_false_r. intros H. exists 0. done.
  - intros [H | H]%orb_true_iff.
    + exists 0. split; [lia | done].
    + destruct (IH H) as (k & Hk & Hs). exists (S k). split; [lia | done].
Qed.

(** The matches of an escaped fragment: none exactly when the fragment
    does not occur in the content. *)
Lemma matchAll_literal_nil o s :
  matchAll (Char <$> o) s = [] ↔ includes s o = false.
Proof.
  unfold matchAll. rewrite scan_nil. split.
  - intros H. destruct (includes s o) eqn:E; [|done].
    apply includes_drop in E as (k & Hk & E).
    specialize (H k Hk). rewrite matchHere_literal, E in H. done.
  - intros H k _. rewrite matchHere_literal.
    by rewrite (not_includes_drop s o k H).
Qed.

Lemma dollar_free_inert t : DOLLAR ∉ t → inert t = true.
Proof.
  induction t as [|c t IH]; [done|].
  intros [H1 H2]%not_elem_of_cons. simpl.
  rewrite (proj2 (N.eqb_neq c DOLLAR)) by done. simpl. by apply IH.
Qed.

Lemma inert_tail c t : inert (c :: t) = true → inert t = true.
Proof. simpl. by intros [_ ?]%andb_true_iff. Qed.

(** With no capture groups, an inert replacement string stands for
    itself. *)
Lemma GetSubstitution_inert m S pos t :
  inert t = true → GetSubstitution m S pos [] t = t.
Proof.
  assert (∀ n t, length t ≤ n → inert t = true → GetSubstitution m S pos [] t = t)
    as H; [|by apply (H (length t))].
  clear t. intros n. induction n as [|n IH]; intros t Hn Ht.
  { destruct t; [done | simpl in Hn; lia]. }
  destruct t as [|c t]; [done|]. simpl in Hn.
  pose proof (inert_tail _ _ Ht) as Ht'.
  cbn [GetSubstitution].
  destruct (N.eqb_spec c DOLLAR) as [->|Hc]; cbn [negb].
  2:{ by rewrite IH by (done || lia). }
  destruct t as [|d t]; [done|]. simpl in Hn.
  pose proof (inert_tail _ _ Ht') as Ht''.
  simpl in Ht. apply andb_true_iff in Ht as [Hd _].
  apply negb_true_iff, orb_false_iff in Hd as [Hd1 Hd].
  apply orb_false_iff in Hd as [Hd2 Hd].
  apply orb_false_iff in Hd as [Hd3 Hd].
  apply orb_false_iff in Hd as [Hd4 _].
  rewrite Hd1, Hd2, Hd3, Hd4.
  assert (GetSubstitution m S pos [] t = t) as Et by (apply IH; [lia | done]).
  assert (GetSubstitution m S pos [] (d :: t) = d :: t) as Edt
    by (apply IH; [simpl; lia | done]).
  destruct (isDigit d); [|by rewrite Edt].
  rewrite bool_decide_eq_false_2 by (simpl; lia).
  destruct t as [|e t]; [by rewrite Et|].
  rewrite Et.
  destruct (isDigit e); [|done].
  case_bool_decide; [done|].
  rewrite bool_decide_eq_false_2 by (simpl in *; lia).
  rewrite IH; [done | simpl in *; lia | by apply (inert_tail e)].
Qed.

Lemma substitute_skip re g s skip :
  skip ≤ length s → substitute re g s skip = substitute re g (drop skip s) 0.
Proof.
  revert skip. induction s as [|c s IH]; intros [|k] Hk; simpl in *; try done; try lia.
  apply IH. lia.
Qed.

Lemma scan_skip re i s skip :
  skip ≤ length s → scan re i s skip = scan re (i + skip) (drop skip s) 0.
Proof.
  revert i skip. induction s as [|c s IH]; intros i [|k] Hk; simpl in *;
    rewrite ?Nat.add_0_r; try done; try lia.
  rewrite IH by lia. f_equal. lia.
Qed.

(** One pass with an escaped, non-empty fragment and a replacement that is
    pasted as it is performs the literal replacement of the
    specification, and the matches are the replaced occurrences. *)
Lemma literal_pass o t s i :
  o ≠ [] →
  ReplacesAll o t s (substitute (Char <$> o) (λ _, t) s 0)
    (length (scan (Char <$> o) i s 0)).
Proof.
  intros Ho. remember (length s) as n eqn:Hn. revert s i Hn.
  induction n as [n IH] using lt_wf_ind. intros s i ->.
  destruct s as [|c s].
  - simpl. destruct o as [|d o]; [done|]. simpl. constructor.
  - cbn [substitute scan]. rewrite matchHere_literal.
    destruct (startsWith (c :: s) o) eqn:E.
    + apply startsWith_prefix in E as [rest E].
      destruct o as [|d o]; [done|]. simpl in E. simplify_eq.
      cbn [length Nat.pred]. rewrite substitute_skip, scan_skip
        by (rewrite length_app; lia).
      rewrite drop_app_length. cbn [app]. cbn [length].
      change (d :: o ++ rest) with ((d :: o) ++ rest).
      change (t ++ substitute (Char <$> d :: o) (λ _, t) rest 0)
        with (t ++ substitute (Char <$> d :: o) (λ _, t) rest 0).
      apply ReplacesAll_hit.
      eapply IH; [|done]. simpl. rewrite length_app. lia.
    + apply ReplacesAll_miss.
      * rewrite <- startsWith_prefix. by rewrite E.
      * eapply IH; [|done]. simpl. lia.
Qed.

(** An empty fragment matches at every index: the replacement is inserted
    in front of every code unit and at the end. *)
Lemma empty_pass t s i :
  substitute [] (λ _, t) s 0 = flat_map (λ c, t ++ [c]) s ++ t
  ∧ length (scan [] i s 0) = S (length s).
Proof.
  revert i. induction s as [|c s IH]; intros i; simpl.
  - by rewrite app_nil_r.
  - destruct (IH (S i)) as [-> ->]. by rewrite <- !app_assoc.
Qed.

(** A replacement that reproduces the match leaves the string as it is. *)
Lemma substitute_id re s skip :
  skip ≤ length s → substitute re (λ m, m) s skip = drop skip s.
Proof.
  revert skip. induction s as [|c s IH]; intros skip Hskip; simpl in *.
  - assert (skip = 0) as -> by lia. simpl.
    destruct (matchHere re []) as [len|] eqn:E; [|done].
    by rewrite take_nil.
  - destruct skip as [|k]; [|apply IH; lia].
    destruct (matchHere re (c :: s)) as [[|l]|] eqn:E; simpl.
    + by rewrite IH by lia.
    + apply matchHere_length in E as [_ E]. simpl in E.
      rewrite IH by lia. f_equal. apply take_drop.
    + by rewrite IH by lia.
Qed.

End Literal.

(** ** The loop of [applyTranslation] *)

Section Loop.

Implicit Types (o t content : jsstring) (total : nat)
  (entries : list (jsstring * jsstring)).

(** A turn of the loop for a pair that is not skipped: the expression is
    the escaped fragment, [content.match] counts its matches and
    [content.replace] rewrites them. *)
Lemma replaceStep_spec o t content total :
  o ≠ t →
  replaceStep (o, t) (content, total)
  = inr (String_replace content (Char <$> o) t,
         total + length (matchAll (Char <$> o) content)).
Proof.
  intros Hot. unfold replaceStep.
  rewrite bool_decide_eq_false_2 by done.
  rewrite RegExp_g_escapeRegex. unfold String_match, String_replace.
  destruct (matchAll (Char <$> o) content) as [|m ms] eqn:E.
  - simpl. by rewrite Nat.add_0_r.
  - by rewrite length_fmap.
Qed.

Lemma replaceStep_equal o acc : replaceStep (o, o) acc = inr acc.
Proof.
  unfold replaceStep. destruct acc as [content total].
  by rewrite bool_decide_eq_true_2.
Qed.

(** The fragment does not occur: the turn changes nothing. *)
Lemma replaceStep_absent o t content total :
  includes content o = false →
  replaceStep (o, t) (content, total) = inr (content, total).
Proof.
  intros H. destruct (decide (o = t)) as [->|Hot]; [apply replaceStep_equal|].
  rewrite replaceStep_spec by done. unfold String_replace.
  rewrite (proj2 (matchAll_literal_nil o content) H). simpl.
  by rewrite Nat.add_0_r.
Qed.

(** The fragment occurs: a turn for a pair that is not skipped counts at
    least one replacement. *)
Lemma replaceStep_present o t content total :
  o ≠ t → includes content o = true →
  ∃ content' n, replaceStep (o, t) (content, total) = inr (content', total + S n).
Proof.
  intros Hot H. rewrite replaceStep_spec by done.
  destruct (matchAll (Char <$> o) content) as [|m ms] eqn:E.
  - apply matchAll_literal_nil in E. congruence.
  - eexists _, (length ms). done.
Qed.

(** The loop never throws: the expression of an escaped fragment always
    compiles. *)
Lemma replaceStep_returns entry acc : ∃ acc', replaceStep entry acc = inr acc'.
Proof.
  destruct entry as [o t], acc as [content total].
  destruct (decide (o = t)) as [->|Hot].
  - eexists. apply replaceStep_equal.
  - eexists. by apply replaceStep_spec.
Qed.

Lemma replaceLoop_returns entries acc : ∃ acc', replaceLoop entries acc = inr acc'.
Proof.
  revert acc. induction entries as [|e entries IH]; intros acc; simpl; [by eexists|].
  destruct (replaceStep_returns e acc) as [acc' ->]. apply IH.
Qed.

Lemma replaceLoop_app entries1 entries2 acc acc' :
  replaceLoop entries1 acc = inr acc' →
  replaceLoop (entries1 ++ entries2) acc = replaceLoop entries2 acc'.
Proof.
  revert acc. induction entries1 as [|e entries1 IH]; intros acc; simpl.
  - by intros [= ->].
  - destruct (replaceStep e acc) as [|acc1]; [done|]. apply IH.
Qed.

(** The count only grows. *)
Lemma replaceStep_mono entry content total content' total' :
  replaceStep entry (content, total) = inr (content', total') → total ≤ total'.
Proof.
  destruct entry as [o t]. destruct (decide (o = t)) as [->|Hot].
  - rewrite replaceStep_equal. intros [= _ <-]. lia.
  - rewrite replaceStep_spec by done. intros [= _ <-]. lia.
Qed.

Lemma replaceLoop_mono entries content total content' total' :
  replaceLoop entries (content, total) = inr (content', total') → total ≤ total'.
Proof.
  revert content total. induction entries as [|e entries IH]; intros content total; simpl.
  - intros [= _ <-]. lia.
  - destruct (replaceStep e (content, total)) as [|[c1 n1]] eqn:E; [done|].
    intros H. apply IH in H. apply replaceStep_mono in E. lia.
Qed.

End Loop.

(** ** [applyTranslation], case by case *)

Definition written (w : world) (p content : jsstring) : world :=
  {| files := <[p := File content]> (files w);
     writes := writes w ++ [(p, content)];
     console := console w |}.

Lemma applyTranslation_cases opencodeDir config relativeFilePath w :
  applyTranslation opencodeDir config relativeFilePath w =
  match or_else relativeFilePath (TranslationConfig.file config) with
  | None | Some [] =>
      Return (ApplicationResult.Build (js "unknown") 0 true
                (Some (js "No file specified"))) w
  | Some targetFile =>
      match files w !! resolvePath opencodeDir targetFile with
      | None =>
          Return (ApplicationResult.Build targetFile 0 true
                    (Some (js "File not found"))) w
      | Some Directory => Throw (EISDIR (resolvePath opencodeDir targetFile)) w
      | Some (File content) =>
          match replaceLoop (Object_entries (TranslationConfig.replacements config))
                  (content, 0) with
          | inl e => Throw e w
          | inr (content', totalReplacements) =>
              Return (ApplicationResult.Build targetFile totalReplacements false None)
                (if bool_decide (0 < totalReplacements)
                 then written w (resolvePath opencodeDir targetFile) content'
                 else w)
          end
      end
  end.
Proof.
  unfold applyTranslation.
  destruct (or_else _ _) as [[|c targetFile]|]; try done.
  unfold mbind, IO_bind, bind, existsSync, readFileSync.
  destruct (files w !! resolvePath opencodeDir (c :: targetFile)) as [[content|]|] eqn:E.
  - rewrite bool_decide_eq_true_2 by done. simpl. rewrite E.
    destruct (replaceLoop _ _) as [e|[content' n]]; [done|].
    case_bool_decide; [|done].
    unfold writeFileSync. simpl. by rewrite E.
  - rewrite bool_decide_eq_true_2 by done. simpl. by rewrite E.
  - rewrite bool_decide_eq_false_2; [done|]. by intros [? ?].
Qed.

(** ** The substitution engine *)

(** A tree used to exercise the statements: [opencodeDir] with one source
    file under [packages/opencode/src]. *)
Definition exampleDir : jsstring := js "/home/dev/.opencode-cn/opencode".
Definition exampleTarget : jsstring := js "src/cli/cmd/tui/app.tsx".
Definition exampleTree (content : jsstring) : world :=
  {| files := {[ resolvePath exampleDir exampleTarget := File content ]};
     writes := [];
     console := [] |}.
Definition exampleConfig (replacements : jsobject) : TranslationConfig.t :=
  TranslationConfig.Build (Some exampleTarget) None replacements.


(** C1. The pairs are applied one after the other to the evolving content:
    the turn for a pair starts from what the turn before it left, so the
    list [("A","B"); ("B","C")] turns the content "A" into "C" (two
    replacements), not into the "B" that the snapshot of the original
    content would give; [applyTranslation] writes that "C" to the file. *)
Theorem chained_ordering entry entries acc acc' opencodeDir targetFile w :
  replaceStep entry acc = inr acc' →
  targetFile ≠ [] →
  files w !! resolvePath opencodeDir targetFile = Some (File (js "A")) →
  replaceLoop (entry :: entries) acc = replaceLoop entries acc'
  ∧ Object_entries [(js "A", js "B"); (js "B", js "C")]
    = [(js "A", js "B"); (js "B", js "C")]
  ∧ replaceStep (js "A", js "B") (js "A", 0) = inr (js "B", 1)
  ∧ replaceStep (js "B", js "C") (js "B", 1) = inr (js "C", 2)
  ∧ replaceLoop [(js "A", js "B"); (js "B", js "C")] (js "A", 0) = inr (js "C", 2)
  ∧ js "C" ≠ js "B"
  ∧ applyTranslation opencodeDir
      (TranslationConfig.Build (Some targetFile) None
         [(js "A", js "B"); (js "B", js "C")]) None w
    = Return (ApplicationResult.Build targetFile 2 false None)
        (written w (resolvePath opencodeDir targetFile) (js "C")).
Proof.
  intros Hstep Htarget Hfile. split; [|repeat split; try done].
  - simpl. by rewrite Hstep.
  - rewrite applyTranslation_cases. simpl.
    destruct targetFile as [|c targetFile]; [done|]. by rewrite Hfile.
Qed.

Lemma chained_ordering_witness :
  replaceLoop [(js "A", js "B"); (js "B", js "C")] (js "A", 0) = inr (js "C", 2)
  ∧ applyTranslation exampleDir
      (exampleConfig [(js "A", js "B"); (js "B", js "C")]) None
      (exampleTree (js "A"))
    = Return (ApplicationResult.Build exampleTarget 2 false None)
        (written (exampleTree (js "A")) (resolvePath exampleDir exampleTarget)
           (js "C")).
Proof.
  pose proof (chained_ordering (js "A", js "B") [(js "B", js "C")]
                (js "A", 0) (js "B", 1) exampleDir exampleTarget
                (exampleTree (js "A"))) as H.
  destruct H as (H1 & _ & _ & H2 & _ & _ & H3).
  - vm_compute. reflexivity.
  - vm_compute. discriminate.
  - vm_compute. reflexivity.
  - split; [|exact H3].
    rewrite H1. cbn [replaceLoop]. rewrite H2. reflexivity.
Defined.



(** What escaping prevents: compiled as it stands, "a.b" is a pattern with
    a wildcard and matches "aXb". *)
Example unescaped_pattern :
  RegExp_g (js "a.b") = Some [Char 97; Dot; Char 98]
  ∧ matchAll [Char 97; Dot; Char 98] (js "aXb") = [(0, 3)]
  ∧ RegExp_g (escapeRegex (js "a.b")) = Some [Char 97; Char 46; Char 98]
  ∧ matchAll [Char 97; Char 46; Char 98] (js "aXb") = [].
Proof. by vm_compute. Qed.

Lemma replaceLoop_equal_pairs entries acc :
  Forall (λ e, e.1 = e.2) entries → replaceLoop entries acc = inr acc.
Proof.
  induction 1 as [|[o t] entries Heq _ IH]; [done|].
  simpl in Heq. subst t. cbn [replaceLoop]. by rewrite replaceStep_equal.
Qed.

(** C8. A pair whose original equals its translated value is skipped: on
    every content it leaves the content and the count as they are, the
    loop gives the same result with the pair as without it, and a document
    made of such pairs reports no replacement and leaves the tree and the
    journal of writes untouched. *)
Theorem equal_pair_noop o content total entries1 entries2
    opencodeDir config relativeFilePath w :
  replaceStep (o, o) (content, total) = inr (content, total)
  ∧ replaceLoop (entries1 ++ (o, o) :: entries2) (content, total)
    = replaceLoop (entries1 ++ entries2) (content, total)
  ∧ (Forall (λ e, e.1 = e.2) (Object_entries (TranslationConfig.replacements config)) →
     (∃ r, applyTranslation opencodeDir config relativeFilePath w = Return r w
           ∧ ApplicationResult.replacements r = 0)
     ∨ (∃ p, applyTranslation opencodeDir config relativeFilePath w
             = Throw (EISDIR p) w)).
Proof.
  split; [apply replaceStep_equal|]. split.
  - destruct (replaceLoop_returns entries1 (content, total)) as [acc' H].
    rewrite !(replaceLoop_app _ _ _ _ H). cbn [replaceLoop].
    by rewrite replaceStep_equal.
  - intros Hall. rewrite applyTranslation_cases.
    destruct (or_else _ _) as [[|c targetFile]|];
      [left; by eexists | | left; by eexists].
    destruct (files w !! _) as [[text|]|]; [|right; by eexists|left; by eexists].
    rewrite (replaceLoop_equal_pairs _ _ Hall). simpl. left. by eexists.
Qed.

Lemma equal_pair_noop_witness :
  ∃ r, applyTranslation exampleDir
         (exampleConfig [(js "OK", js "OK"); (js "7", js "7")]) None
         (exampleTree (js "OK 7 OK"))
       = Return r (exampleTree (js "OK 7 OK"))
       ∧ ApplicationResult.replacements r = 0.
Proof.
  destruct (equal_pair_noop (js "OK") (js "OK 7 OK") 0 [] [] exampleDir
              (exampleConfig [(js "OK", js "OK"); (js "7", js "7")]) None
              (exampleTree (js "OK 7 OK"))) as (_ & _ & H).
  destruct H as [H | [p H]].
  - vm_compute. repeat constructor.
  - exact H.
  - vm_compute in H. discriminate H.
Defined.

Lemma digit_inert d : isDigit d = true → inert [DOLLAR; d] = true.
Proof.
  unfold isDigit. intros [H1%N.leb_le H2%N.leb_le]%andb_true_iff.
  cbn -[N.eqb]. unfold DOLLAR, AMPERSAND, BACKTICK, QUOTE.
  repeat match goal with
         | |- context [(d =? ?k)%N] =>
             rewrite (proj2 (N.eqb_neq d k)) by lia
         end.
  done.
Qed.

Lemma replaceStep_inert o t content total :
  o ≠ t → inert t = true →
  replaceStep (o, t) (content, total)
  = inr (substitute (Char <$> o) (λ _, t) content 0,
         total + length (matchAll (Char <$> o) content)).
Proof.
  intros Hot Ht. rewrite replaceStep_spec by done.
  rewrite (String_replace_substitute _ (λ _, t)); [done|].
  intros. by apply GetSubstitution_inert.
Qed.

(** A claim about [$1] that the code does not bear out: with the pair
    ("x", "$1") the content "x" becomes the literal text "$1". *)
Lemma dollar_digit_is_literal :
  DOLLAR ∈ js "$1"
  ∧ replaceStep (js "x", js "$1") (js "x", 0) = inr (js "$1", 1).
Proof. split; [|done]. apply elem_of_cons. by left. Qed.

(** C10, amended. The translated value is handed to [replace] as it is.
    When it contains no [$] (more generally, no [$] followed by [$], [&],
    a backtick or a quote), every matched occurrence of the original is
    replaced by exactly the translated text, and a [$] followed by digits
    such as [$1] is of that kind because the escaped expression has no
    capture group. The forms that are expanded are [$&], which puts the
    matched text back (the content does not change, the matches are still
    counted), and [$$], which leaves a single [$]. *)
Theorem replacement_text original translated content total :
  original ≠ translated →
  (DOLLAR ∉ translated → inert translated = true)
  ∧ (∀ d, isDigit d = true → inert [DOLLAR; d] = true)
  ∧ (inert translated = true → original ≠ [] →
       ∃ content' n,
         replaceStep (original, translated) (content, total)
         = inr (content', total + n)
         ∧ ReplacesAll original translated content content' n)
  ∧ (inert translated = true → original = [] →
       replaceStep (original, translated) (content, total)
       = inr (flat_map (λ c, translated ++ [c]) content ++ translated,
              total + S (length content)))
  ∧ (translated = js "$&" →
       replaceStep (original, translated) (content, total)
       = inr (content, total + length (matchAll (Char <$> original) content)))
  ∧ (translated = js "$$" → original ≠ [] →
       ∃ content' n,
         replaceStep (original, translated) (content, total)
         = inr (content', total + n)
         ∧ ReplacesAll original [DOLLAR] content content' n)
  ∧ replaceStep (js "key", js "[$&]") (js "API key", 0) = inr (js "API [key]", 1)
  ∧ replaceStep (js "USD", js "$$") (js "5 USD", 0) = inr (js "5 $", 1)
  ∧ replaceStep (js "x", js "$1") (js "x", 0) = inr (js "$1", 1).
Proof.
  intros Hot.
  split; [apply dollar_free_inert|].
  split; [apply digit_inert|].
  split.
  { intros Ht Ho. rewrite replaceStep_inert by done.
    eexists _, _. split; [done|]. by apply literal_pass. }
  split.
  { intros Ht ->. rewrite replaceStep_inert by done.
    unfold matchAll. cbn [fmap list_fmap].
    by destruct (empty_pass translated content 0) as [-> ->]. }
  split.
  { intros ->. rewrite replaceStep_spec by done.
    rewrite (String_replace_substitute _ (λ m, m)).
    - by rewrite substitute_id by lia.
    - intros. simpl. apply app_nil_r. }
  split; [|done].
  intros -> Ho. rewrite replaceStep_spec by done.
  rewrite (String_replace_substitute _ (λ _, [DOLLAR])) by done.
  eexists _, _. split; [done|]. by apply literal_pass.
Qed.

Lemma replacement_text_witness :
  (∃ content' n,
     replaceStep (js "Save", js "$9.99") (js "Save now", 0) = inr (content', 0 + n)
     ∧ ReplacesAll (js "Save") (js "$9.99") (js "Save now") content' n)
  ∧ replaceStep (js "Save", js "$&") (js "Save now", 0)
    = inr (js "Save now", 0 + length (matchAll (Char <$> js "Save") (js "Save now"))).
Proof.
  split.
  - apply (replacement_text (js "Save") (js "$9.99") (js "Save now") 0).
    + vm_compute. discriminate.
    + vm_compute. reflexivity.
    + vm_compute. discriminate.
  - apply (replacement_text (js "Save") (js "$&") (js "Save now") 0).
    + vm_compute. discriminate.
    + reflexivity.
Defined.

(** ** Applying a document twice *)


(** The content has settled for a document: no pair that is not skipped
    has its original left in it. *)
Definition settled (entries : list (jsstring * jsstring)) (content : jsstring)
  : Prop :=
  Forall (λ e, e.1 ≠ e.2 → includes content e.1 = false) entries.


(** The proviso is exact: a pass that counts nothing found the content
    settled, and left it as it was. *)
Lemma replaceLoop_zero entries content content' :
  replaceLoop entries (content, 0) = inr (content', 0) →
  content' = content ∧ settled entries content.
Proof.
  revert content. induction entries as [|[o t] entries IH]; intros content.
  - intros [= ->]. split; [done | constructor].
  - cbn [replaceLoop].
    destruct (replaceStep (o, t) (content, 0)) as [|[c1 n1]] eqn:E; [done|].
    intros Hloop. pose proof (replaceLoop_mono _ _ _ _ _ Hloop) as Hn.
    assert (n1 = 0) as -> by lia.
    assert (o ≠ t → includes content o = false) as Habs.
    { intros Hot. destruct (includes content o) eqn:Hin; [|done].
      destruct (replaceStep_present o t content 0 Hot Hin) as (? & n & E').
      rewrite E in E'. simplify_eq. }
    assert (c1 = content) as ->.
    { destruct (decide (o = t)) as [->|Hot].
      - rewrite replaceStep_equal in E. by simplify_eq.
      - rewrite replaceStep_absent in E by auto. by simplify_eq. }
    destruct (IH _ Hloop) as [-> Hs]. split; [done|]. by constructor.
Qed.




(** ** Skips and writes *)

(** C3. [applyTranslation] skips in exactly two ways, each with zero
    replacements and the world left as it was: with reason
    "No file specified" when neither the override nor the document gives a
    target path, and with reason "File not found" when the resolved path
    is not in the tree. A result that is not skipped has no reason and
    comes from a file that was there; in every result [skipped] implies
    zero replacements. *)
Theorem skip_outcomes opencodeDir config relativeFilePath w r w' :
  applyTranslation opencodeDir config relativeFilePath w = Return r w' →
  let target := or_else relativeFilePath (TranslationConfig.file config) in
  (ApplicationResult.skipped r = true →
     ApplicationResult.replacements r = 0 ∧ w' = w
     ∧ ((truthy target = false
         ∧ r = ApplicationResult.Build (js "unknown") 0 true
                 (Some (js "No file specified")))
        ∨ (∃ targetFile,
             target = Some targetFile ∧ truthy target = true
             ∧ files w !! resolvePath opencodeDir targetFile = None
             ∧ r = ApplicationResult.Build targetFile 0 true
                     (Some (js "File not found")))))
  ∧ (ApplicationResult.skipped r = false →
     ApplicationResult.reason r = None
     ∧ ∃ targetFile content,
         target = Some targetFile ∧ truthy target = true
         ∧ files w !! resolvePath opencodeDir targetFile = Some (File content))
  ∧ (truthy target = false → ApplicationResult.skipped r = true)
  ∧ (∀ targetFile, target = Some targetFile →
       files w !! resolvePath opencodeDir targetFile = None →
       ApplicationResult.skipped r = true).
Proof.
  rewrite applyTranslation_cases. intros H target. subst target.
  destruct (or_else _ _) as [[|c targetFile]|] eqn:Etarget.
  - injection H as <- <-. simpl. repeat split; try done. by left.
  - destruct (files w !! _) as [[content|]|] eqn:Efile.
    + destruct (replaceLoop _ _) as [|[content' n]]; [done|].
      injection H as <- <-. simpl. repeat split; try done.
      * by eexists _, _.
      * intros ? [= <-]. congruence.
    + done.
    + injection H as <- <-. simpl. repeat split; try done.
      right. by eexists.
  - injection H as <- <-. simpl. repeat split; try done. by left.
Qed.

Lemma skip_outcomes_witness :
  applyTranslation exampleDir (exampleConfig []) (Some (js "src/missing.ts"))
    (exampleTree (js "text"))
  = Return (ApplicationResult.Build (js "src/missing.ts") 0 true
              (Some (js "File not found"))) (exampleTree (js "text"))
  ∧ applyTranslation exampleDir (TranslationConfig.Build (Some []) None []) None
      (exampleTree (js "text"))
    = Return (ApplicationResult.Build (js "unknown") 0 true
                (Some (js "No file specified"))) (exampleTree (js "text")).
Proof.
  split.
  - assert (applyTranslation exampleDir (exampleConfig [])
              (Some (js "src/missing.ts")) (exampleTree (js "text"))
            = Return (ApplicationResult.Build (js "src/missing.ts") 0 true
                        (Some (js "File not found"))) (exampleTree (js "text")))
      as H by (vm_compute; reflexivity).
    destruct (skip_outcomes _ _ _ _ _ _ H) as (Hs & _ & _ & _).
    destruct (Hs eq_refl) as (_ & _ & _). exact H.
  - assert (applyTranslation exampleDir (TranslationConfig.Build (Some []) None [])
              None (exampleTree (js "text"))
            = Return (ApplicationResult.Build (js "unknown") 0 true
                        (Some (js "No file specified"))) (exampleTree (js "text")))
      as H by (vm_compute; reflexivity).
    destruct (skip_outcomes _ _ _ _ _ _ H) as (_ & _ & Hs & _).
    pose proof (Hs eq_refl) as _. exact H.
Defined.

(** C6. One invocation of [applyTranslation] writes at most once, and only
    to the resolved target: when the count is greater than zero the world
    differs from the initial one by that single write (one more entry in
    the journal, the new content at that path); when the count is zero,
    and also when the call throws, the world is the initial one. *)
Theorem single_write opencodeDir config relativeFilePath w :
  match applyTranslation opencodeDir config relativeFilePath w with
  | Return r w' =>
      (0 < ApplicationResult.replacements r →
         ∃ targetFile content',
           or_else relativeFilePath (TranslationConfig.file config) = Some targetFile
           ∧ files w' = <[resolvePath opencodeDir targetFile := File content']> (files w)
           ∧ writes w' = writes w ++ [(resolvePath opencodeDir targetFile, content')]
           ∧ console w' = console w)
      ∧ (ApplicationResult.replacements r = 0 → w' = w)
      ∧ (writes w' ≠ writes w ↔ 0 < ApplicationResult.replacements r)
  | Throw e w' => w' = w
  end.
Proof.
  rewrite applyTranslation_cases.
  assert (∀ x : jsstring * jsstring, writes w ++ [x] ≠ writes w) as Hne.
  { intros x H. apply (f_equal length) in H. rewrite length_app in H.
    simpl in H. lia. }
  assert (∀ r, ApplicationResult.replacements r = 0 →
               (0 < ApplicationResult.replacements r →
                  ∃ targetFile content',
                    or_else relativeFilePath (TranslationConfig.file config)
                    = Some targetFile
                    ∧ files w = <[resolvePath opencodeDir targetFile := File content']> (files w)
                    ∧ writes w = writes w ++ [(resolvePath opencodeDir targetFile, content')]
                    ∧ console w = console w)
               ∧ (ApplicationResult.replacements r = 0 → w = w)
               ∧ (writes w ≠ writes w ↔ 0 < ApplicationResult.replacements r))
    as Hzero.
  { intros r Hr. split; [lia|]. split; [done|]. split; [done | lia]. }
  destruct (or_else _ _) as [[|c targetFile]|] eqn:Etarget; [by apply Hzero| |by apply Hzero].
  destruct (files w !! _) as [[content|]|]; [|done|by apply Hzero].
  destruct (replaceLoop _ _) as [|[content' n]]; [done|].
  case_bool_decide as Hn; [|apply Hzero; simpl; lia].
  simpl. split; [intros _; by eexists _, _|]. split; [lia|].
  split; [done|]. intros _. apply Hne.
Qed.

(** ** The path of the target file *)

(** A segment that normalization leaves alone: not empty, not [.] or
    [..], without separator. *)
Definition cleanSegment (seg : jsstring) : bool :=
  negb (bool_decide (seg = [])) && negb (bool_decide (seg = js "."))
  && negb (bool_decide (seg = js "..")) && negb (existsb (N.eqb SLASH) seg).

Definition relativePath (segs : list jsstring) : jsstring := joinWith SLASH segs.
Definition absolutePath (segs : list jsstring) : jsstring :=
  SLASH :: joinWith SLASH segs.

Section Paths.

Implicit Types (seg p : jsstring) (segs : list jsstring).

Lemma cleanSegment_spec seg :
  cleanSegment seg = true →
  seg ≠ [] ∧ seg ≠ js "." ∧ seg ≠ js ".." ∧ SLASH ∉ seg.
Proof.
  unfold cleanSegment. rewrite !andb_true_iff, !negb_true_iff.
  intros [[[H1 H2] H3] H4].
  apply bool_decide_eq_false in H1, H2, H3.
  repeat split; try done.
  intros Hin. apply not_true_iff_false in H4. apply H4.
  apply existsb_exists. exists SLASH. split; [by apply list_elem_of_In|].
  apply N.eqb_refl.
Qed.

Lemma split_segment seg : SLASH ∉ seg → split SLASH seg = [seg].
Proof.
  induction seg as [|c seg IH]; [done|].
  intros [Hc Hseg]%not_elem_of_cons. cbn [split].
  rewrite (proj2 (N.eqb_neq c SLASH)) by done. by rewrite IH.
Qed.

Lemma split_separator seg p :
  SLASH ∉ seg → split SLASH (seg ++ SLASH :: p) = seg :: split SLASH p.
Proof.
  induction seg as [|c seg IH]; intros Hseg.
  - cbn [app split]. by rewrite N.eqb_refl.
  - apply not_elem_of_cons in Hseg as [Hc Hseg]. cbn [app split].
    rewrite (proj2 (N.eqb_neq c SLASH)) by done. by rewrite IH.
Qed.

Lemma split_joinWith segs :
  segs ≠ [] → Forall (λ seg, SLASH ∉ seg) segs →
  split SLASH (joinWith SLASH segs) = segs.
Proof.
  destruct segs as [|x xs]; [done|]. intros _. revert x.
  induction xs as [|y ys IH]; intros x Hall.
  - apply Forall_cons in Hall as [Hx _]. cbn. rewrite app_nil_r.
    by apply split_segment.
  - apply Forall_cons in Hall as [Hx Hall].
    change (joinWith SLASH (x :: y :: ys))
      with (x ++ SLASH :: joinWith SLASH (y :: ys)).
    rewrite split_separator by done. by rewrite IH.
Qed.

Lemma joinWith_app segs1 segs2 :
  segs1 ≠ [] →
  joinWith SLASH (segs1 ++ segs2)
  = joinWith SLASH segs1 ++ flat_map (cons SLASH) segs2.
Proof.
  destruct segs1 as [|x xs]; [done|]. intros _. cbn.
  by rewrite flat_map_app, app_assoc.
Qed.

Lemma normalizeSegments_clean allowAboveRoot res segs :
  forallb cleanSegment segs = true →
  normalizeSegments allowAboveRoot res segs = rev res ++ segs.
Proof.
  revert res. induction segs as [|seg segs IH]; intros res; cbn [forallb].
  - intros _. by rewrite app_nil_r.
  - intros [Hseg Hsegs]%andb_true_iff.
    destruct (cleanSegment_spec _ Hseg) as (H1 & H2 & H3 & _).
    cbn [normalizeSegments].
    rewrite !bool_decide_eq_false_2 by done. cbn [orb].
    rewrite IH by done. cbn [rev]. by rewrite <- app_assoc.
Qed.

Lemma forallb_clean_no_separator segs :
  forallb cleanSegment segs = true → Forall (λ seg, SLASH ∉ seg) segs.
Proof.
  rewrite forallb_forall, Forall_forall. intros H seg Hin.
  apply cleanSegment_spec, H. by apply list_elem_of_In.
Qed.

(** A joined list of clean segments does not end with a separator, and
    does not start with one. *)
Lemma joinWith_last segs :
  segs ≠ [] → forallb cleanSegment segs = true →
  ∃ pre c, joinWith SLASH segs = pre ++ [c] ∧ c ≠ SLASH.
Proof.
  destruct segs as [|x xs]; [done|]. intros _. revert x.
  induction xs as [|y ys IH]; intros x; cbn [forallb].
  - intros [Hx _]%andb_true_iff.
    destruct (cleanSegment_spec _ Hx) as (H1 & _ & _ & H4).
    cbn. rewrite app_nil_r.
    destruct x as [|c x _] using rev_ind; [done|].
    exists x, c. split; [done|]. intros ->. apply H4.
    apply elem_of_app. right. by apply list_elem_of_singleton.
  - intros [Hx Hrest]%andb_true_iff.
    destruct (IH y Hrest) as (pre & c & E & Hc).
    change (joinWith SLASH (x :: y :: ys))
      with (x ++ SLASH :: joinWith SLASH (y :: ys)).
    rewrite E. exists (x ++ SLASH :: pre), c. split; [|done].
    by rewrite <- app_assoc.
Qed.

Lemma joinWith_head segs :
  segs ≠ [] → forallb cleanSegment segs = true →
  ∃ c p, joinWith SLASH segs = c :: p ∧ c ≠ SLASH.
Proof.
  destruct segs as [|x xs]; [done|]. intros _. cbn [forallb].
  intros [Hx _]%andb_true_iff.
  destruct (cleanSegment_spec _ Hx) as (H1 & _ & _ & H4).
  destruct x as [|c x]; [done|]. exists c, (x ++ flat_map (cons SLASH) xs).
  split; [done|]. intros ->. apply H4. by left.
Qed.

(** Joining a clean absolute directory with a clean relative path puts
    the segments one after the other. *)
Lemma path_join_clean dsegs tsegs :
  forallb cleanSegment dsegs = true → forallb cleanSegment tsegs = true →
  tsegs ≠ [] →
  path_join [absolutePath dsegs; relativePath tsegs]
  = absolutePath (dsegs ++ tsegs).
Proof.
  intros Hd Ht Hne.
  destruct (joinWith_head tsegs Hne Ht) as (c0 & p0 & Ehead & _).
  destruct (joinWith_last tsegs Hne Ht) as (pre & c & Elast & Hc).
  unfold path_join, absolutePath, relativePath.
  rewrite Ehead. cbn [filter list_filter].
  rewrite !decide_True by done. rewrite <- Ehead.
  cbn [joinWith flat_map]. rewrite app_nil_r.
  cbn [app]. unfold path_normalize.
  rewrite N.eqb_refl. cbn [negb].
  assert (last (SLASH :: joinWith SLASH dsegs ++ SLASH :: joinWith SLASH tsegs)
          = Some c) as ->.
  { rewrite Elast.
    change (SLASH :: joinWith SLASH dsegs ++ SLASH :: pre ++ [c])
      with ((SLASH :: joinWith SLASH dsegs ++ SLASH :: pre) ++ [c])
      || replace (SLASH :: joinWith SLASH dsegs ++ SLASH :: pre ++ [c])
           with ((SLASH :: joinWith SLASH dsegs ++ SLASH :: pre) ++ [c])
           by (cbn; by rewrite <- app_assoc).
    apply last_snoc. }
  rewrite bool_decide_eq_false_2 by congruence.
  assert (normalizeString
            (SLASH :: joinWith SLASH dsegs ++ SLASH :: joinWith SLASH tsegs) false
          = joinWith SLASH (dsegs ++ tsegs)) as ->.
  { unfold normalizeString. f_equal. cbn [split]. rewrite N.eqb_refl.
    cbn [normalizeSegments bool_decide decide_rel]. 
    rewrite bool_decide_eq_true_2 by done. cbn [orb].
    destruct dsegs as [|d dsegs].
    - cbn [joinWith app split]. rewrite N.eqb_refl.
      cbn [normalizeSegments]. rewrite bool_decide_eq_true_2 by done. cbn [orb].
      rewrite split_joinWith by (done || by apply forallb_clean_no_separator).
      by rewrite normalizeSegments_clean.
    - replace (joinWith SLASH (d :: dsegs) ++ SLASH :: joinWith SLASH tsegs)
        with (joinWith SLASH ((d :: dsegs) ++ tsegs)).
      + rewrite split_joinWith.
        * rewrite normalizeSegments_clean; [done|].
          rewrite forallb_app. by rewrite Hd, Ht.
        * done.
        * apply forallb_clean_no_separator. rewrite forallb_app. by rewrite Hd, Ht.
      + rewrite joinWith_app by done. f_equal.
        destruct tsegs as [|t tsegs]; [done|]. done. }
  destruct (joinWith SLASH (dsegs ++ tsegs)) eqn:E; [|done].
  exfalso. destruct dsegs as [|d dsegs].
  - cbn [app] in E. congruence.
  - destruct (joinWith_head (d :: dsegs) ltac:(done) Hd) as (c1 & p1 & E1 & _).
    rewrite joinWith_app, E1 in E by done. done.
Qed.

(** Nesting a clean relative path under [packages/opencode]. *)
Lemma path_join_nest tsegs :
  forallb cleanSegment tsegs = true → tsegs ≠ [] →
  path_join [js "packages"; js "opencode"; relativePath tsegs]
  = relativePath (js "packages" :: js "opencode" :: tsegs).
Proof.
  intros Ht Hne.
  destruct (joinWith_head tsegs Hne Ht) as (c0 & p0 & Ehead & _).
  assert (forallb cleanSegment (js "packages" :: js "opencode" :: tsegs) = true)
    as Hall by (cbn [forallb]; by rewrite Ht).
  destruct (joinWith_last (js "packages" :: js "opencode" :: tsegs)
              ltac:(done) Hall) as (pre & c & Elast & Hc).
  unfold path_join, relativePath.
  rewrite Ehead. cbn [filter list_filter].
  rewrite !decide_True by done. rewrite <- Ehead.
  assert (joinWith SLASH [js "packages"; js "opencode"; joinWith SLASH tsegs]
          = joinWith SLASH (js "packages" :: js "opencode" :: tsegs)) as ->.
  { cbn [joinWith flat_map]. rewrite app_nil_r. f_equal. f_equal.
    destruct tsegs as [|t tsegs]; [done|]. done. }
  unfold path_normalize.
  destruct (joinWith SLASH (js "packages" :: js "opencode" :: tsegs))
    as [|c1 p1] eqn:E; [done|].
  assert ((c1 =? SLASH)%N = false) as ->.
  { cbn in E. injection E as <- _. done. }
  rewrite <- E. cbn [negb].
  assert (last (joinWith SLASH (js "packages" :: js "opencode" :: tsegs)) = Some c)
    as -> by (rewrite E, Elast; apply last_snoc).
  rewrite bool_decide_eq_false_2 by congruence.
  unfold normalizeString.
  rewrite split_joinWith by (done || by apply forallb_clean_no_separator).
  rewrite normalizeSegments_clean by done. cbn [rev app].
  by rewrite E.
Qed.

Lemma startsWith_src_not_packages p :
  startsWith p (js "packages/") = true → startsWith p (js "src/") = false.
Proof.
  change (js "packages/") with (112%N :: js "ackages/").
  change (js "src/") with (115%N :: js "rc/").
  destruct p as [|c p]; [done|]. cbn [startsWith].
  by destruct (N.eqb_spec c 112) as [->|].
Qed.

End Paths.

(** C7. One rule decides the path, the first that applies: a target that
    begins with "src/" is nested under "packages/opencode"; a target that
    does not begin with "packages/" is nested in the same way; a target
    that begins with "packages/" is kept. The result is joined under the
    root of the tree: for a root and a target made of clean segments it is
    the root's segments, then (unless the target begins with "packages/")
    [packages] and [opencode], then the target's segments. The resolver
    does not look at the tree; [applyTranslation] checks afterwards
    whether the resolved path is there. *)
Theorem path_resolution opencodeDir targetFile dsegs tsegs config w :
  forallb cleanSegment dsegs = true →
  forallb cleanSegment tsegs = true →
  tsegs ≠ [] →
  targetFile ≠ [] →
  files w !! resolvePath opencodeDir targetFile = None →
  let nested := path_join [js "packages"; js "opencode"; targetFile] in
  (startsWith targetFile (js "src/") = true →
     resolvePath opencodeDir targetFile = path_join [opencodeDir; nested])
  ∧ (startsWith targetFile (js "src/") = false →
     startsWith targetFile (js "packages/") = false →
     resolvePath opencodeDir targetFile = path_join [opencodeDir; nested])
  ∧ (startsWith targetFile (js "packages/") = true →
     resolvePath opencodeDir targetFile = path_join [opencodeDir; targetFile])
  ∧ resolvePath (absolutePath dsegs) (relativePath tsegs)
    = absolutePath
        (dsegs ++
         if startsWith (relativePath tsegs) (js "packages/") then tsegs
         else js "packages" :: js "opencode" :: tsegs)
  ∧ applyTranslation opencodeDir config (Some targetFile) w
    = Return (ApplicationResult.Build targetFile 0 true (Some (js "File not found"))) w.
Proof.
  intros Hd Ht Hne Htarget Hmissing nested. subst nested. unfold resolvePath.
  split; [by intros ->|].
  split; [by intros -> ->|].
  split.
  { intros H. by rewrite (startsWith_src_not_packages _ H), H. }
  split.
  - assert (forallb cleanSegment (js "packages" :: js "opencode" :: tsegs) = true)
      as Hall by (cbn [forallb]; by rewrite Ht).
    destruct (startsWith (relativePath tsegs) (js "packages/")) eqn:Epkg.
    + rewrite (startsWith_src_not_packages _ Epkg). cbn [negb].
      by apply path_join_clean.
    + cbn [negb].
      assert (path_join [absolutePath dsegs;
                path_join [js "packages"; js "opencode"; relativePath tsegs]]
              = absolutePath (dsegs ++ js "packages" :: js "opencode" :: tsegs))
        as Hnest.
      { rewrite path_join_nest by done. by apply path_join_clean. }
      by destruct (startsWith (relativePath tsegs) (js "src/")).
  - rewrite applyTranslation_cases.
    destruct targetFile as [|c targetFile]; [done|]. cbn [or_else truthy].
    fold (resolvePath opencodeDir (c :: targetFile)). by rewrite Hmissing.
Qed.

Lemma path_resolution_witness :
  resolvePath (js "/home/dev/.opencode-cn/opencode") (js "src/cli/cmd/tui/app.tsx")
  = js "/home/dev/.opencode-cn/opencode/packages/opencode/src/cli/cmd/tui/app.tsx"
  ∧ resolvePath (js "/home/dev/.opencode-cn/opencode") (js "script/build.ts")
    = js "/home/dev/.opencode-cn/opencode/packages/opencode/script/build.ts"
  ∧ resolvePath (js "/home/dev/.opencode-cn/opencode") (js "packages/tui/main.go")
    = js "/home/dev/.opencode-cn/opencode/packages/tui/main.go".
Proof.
  pose (dsegs := [js "home"; js "dev"; js ".opencode-cn"; js "opencode"]).
  pose (w := World ∅ [] []).
  pose (config := exampleConfig []).
  assert (∀ tsegs,
            forallb cleanSegment tsegs = true → tsegs ≠ [] →
            relativePath tsegs ≠ [] →
            files w !! resolvePath (absolutePath dsegs) (relativePath tsegs) = None →
            resolvePath (absolutePath dsegs) (relativePath tsegs)
            = absolutePath
                (dsegs ++
                 if startsWith (relativePath tsegs) (js "packages/") then tsegs
                 else js "packages" :: js "opencode" :: tsegs)) as H.
  { intros tsegs H1 H2 H3 H4.
    apply (path_resolution (absolutePath dsegs) (relativePath tsegs) dsegs tsegs
             config w); try assumption.
    vm_compute. reflexivity. }
  split; [|split].
  - etransitivity.
    + apply (H [js "src"; js "cli"; js "cmd"; js "tui"; js "app.tsx"]).
      * vm_compute. reflexivity.
      * discriminate.
      * vm_compute. discriminate.
      * vm_compute. reflexivity.
    + vm_compute. reflexivity.
  - etransitivity.
    + apply (H [js "script"; js "build.ts"]).
      * vm_compute. reflexivity.
      * discriminate.
      * vm_compute. discriminate.
      * vm_compute. reflexivity.
    + vm_compute. reflexivity.
  - etransitivity.
    + apply (H [js "packages"; js "tui"; js "main.go"]).
      * vm_compute. reflexivity.
      * discriminate.
      * vm_compute. discriminate.
      * vm_compute. reflexivity.
    + vm_compute. reflexivity.
Defined.

(** ** The batch applier *)

(** The accounting of the specification: what one document adds to the
    statistics, by the result of its application. *)
Definition bumpSkipped (stats : Stats.t) : Stats.t :=
  Stats.Build (Stats.filesProcessed stats) (S (Stats.filesSkipped stats))
    (Stats.totalReplacements stats).

Definition bumpProcessed (stats : Stats.t) : Stats.t :=
  Stats.Build (S (Stats.filesProcessed stats)) (Stats.filesSkipped stats)
    (Stats.totalReplacements stats).

Definition addReplacements (stats : Stats.t) (replacements : nat) : Stats.t :=
  Stats.Build (Stats.filesProcessed stats) (Stats.filesSkipped stats)
    (Stats.totalReplacements stats + replacements).

Definition classify (stats : Stats.t) (r : ApplicationResult.t) : Stats.t :=
  if ApplicationResult.skipped r then bumpSkipped stats
  else if bool_decide (0 < ApplicationResult.replacements r) then
    addReplacements (bumpProcessed stats) (ApplicationResult.replacements r)
  else bumpProcessed stats.

(** The status line of a document that was loaded. *)
Definition statusLine (r : ApplicationResult.t) : line :=
  if ApplicationResult.skipped r then
    Skipped (ApplicationResult.file r) (default [] (ApplicationResult.reason r))
  else if bool_decide (0 < ApplicationResult.replacements r) then
    Replaced (ApplicationResult.file r) (ApplicationResult.replacements r)
  else NoMatches (ApplicationResult.file r).

(** The statistics read back from the console: the lines that report a
    document, and what each of them stands for. *)
Definition isOutcome (l : line) : bool :=
  match l with
  | TranslationFileNotFound _ | Skipped _ _ | Replaced _ _ | NoMatches _ => true
  | _ => false
  end.

Definition tallyLine (stats : Stats.t) (l : line) : Stats.t :=
  match l with
  | TranslationFileNotFound _ | Skipped _ _ => bumpSkipped stats
  | Replaced _ n => addReplacements (bumpProcessed stats) n
  | NoMatches _ => bumpProcessed stats
  | _ => stats
  end.

Definition tally (ls : list line) : Stats.t :=
  foldl tallyLine (Stats.Build 0 0 0) ls.

Definition outcomes (ls : list line) : list line :=
  filter (λ l, isOutcome l = true) ls.

(** The documents of a manifest, in the order [main] takes them. *)
Definition documents (modules : Modules.t) : list jsstring :=
  default [] (Modules.root modules) ++ default [] (Modules.dialogs modules)
  ++ default [] (Modules.components modules) ++ default [] (Modules.routes modules)
  ++ default [] (Modules.common modules).

Definition logged (w : world) (ls : list line) : world :=
  {| files := files w; writes := writes w; console := console w ++ ls |}.

Section Tally.

Implicit Types (stats : Stats.t) (l : line) (ls : list line).

Lemma classify_statusLine stats r : classify stats r = tallyLine stats (statusLine r).
Proof.
  unfold classify, statusLine. destruct (ApplicationResult.skipped r); [done|].
  by case_bool_decide.
Qed.

Lemma statusLine_outcome r : isOutcome (statusLine r) = true.
Proof.
  unfold statusLine. destruct (ApplicationResult.skipped r); [done|].
  by case_bool_decide.
Qed.

Lemma tallyLine_neutral stats l : isOutcome l = false → tallyLine stats l = stats.
Proof. by destruct l. Qed.

(** The statistics are sums over the lines. *)
Lemma foldl_tallyLine stats ls :
  foldl tallyLine stats ls
  = Stats.Build
      (Stats.filesProcessed stats + Stats.filesProcessed (tally ls))
      (Stats.filesSkipped stats + Stats.filesSkipped (tally ls))
      (Stats.totalReplacements stats + Stats.totalReplacements (tally ls)).
Proof.
  unfold tally. revert stats.
  induction ls as [|l ls IH] using rev_ind; intros [p s t]; simpl.
  - f_equal; lia.
  - rewrite !foldl_app. simpl. rewrite (IH (Stats.Build p s t)). simpl.
    destruct l; simpl; unfold bumpSkipped, bumpProcessed, addReplacements;
      simpl; f_equal; lia.
Qed.

Lemma tally_app ls1 ls2 :
  tally (ls1 ++ ls2) = foldl tallyLine (tally ls1) ls2.
Proof. unfold tally. by rewrite foldl_app. Qed.

Lemma tally_outcomes ls : tally (outcomes ls) = tally ls.
Proof.
  unfold outcomes. induction ls as [|l ls IH] using rev_ind; [done|].
  rewrite filter_app, !tally_app, IH. cbn [filter list_filter].
  destruct (isOutcome l) eqn:E.
  - by rewrite decide_True by done.
  - rewrite decide_False by congruence. simpl.
    by rewrite tallyLine_neutral.
Qed.

Lemma tally_permutation ls1 ls2 : ls1 ≡ₚ ls2 → tally ls1 = tally ls2.
Proof.
  induction 1 as [|l ls1 ls2 _ IH|l1 l2 ls|ls1 ls2 ls3 _ IH1 _ IH2].
  - done.
  - change (l :: ls1) with ([l] ++ ls1). change (l :: ls2) with ([l] ++ ls2).
    rewrite !tally_app, (foldl_tallyLine _ ls1), (foldl_tallyLine _ ls2).
    by rewrite IH.
  - change (l2 :: l1 :: ls) with ([l2; l1] ++ ls).
    change (l1 :: l2 :: ls) with ([l1; l2] ++ ls).
    rewrite !tally_app, (foldl_tallyLine (tally [l2; l1])),
      (foldl_tallyLine (tally [l1; l2])).
    destruct l1, l2; simpl; unfold bumpSkipped, bumpProcessed, addReplacements;
      simpl; f_equal; lia.
  - congruence.
Qed.

End Tally.

Section Batch.

Variable scriptDir : jsstring.
Variable parseTranslationConfig : jsstring → option TranslationConfig.t.
Variable parseModuleConfig : jsstring → option ModuleConfig.t.
Variable parsePackageVersion : jsstring → option jsstring.


Implicit Types (w : world) (stats : Stats.t).

Lemma bind_Return_inv {A B} (c : IO A) (k : A → IO B) w b w'' :
  (c ≫= k) w = Return b w'' →
  ∃ a w', c w = Return a w' ∧ k a w' = Return b w''.
Proof.
  unfold mbind, IO_bind, bind. destruct (c w) as [a w'|e w']; [|done].
  intros H. by exists a, w'.
Qed.

Lemma console_log_logged l w : console_log l w = Return tt (logged w [l]).
Proof. done. Qed.

Lemma applyTranslation_console opencodeDir config relativeFilePath w r w' :
  applyTranslation opencodeDir config relativeFilePath w = Return r w' →
  console w' = console w.
Proof.
  rewrite applyTranslation_cases.
  destruct (or_else _ _) as [[|c targetFile]|]; try by intros [= <- <-].
  destruct (files w !! _) as [[content|]|]; try done; [|by intros [= <- <-]].
  destruct (replaceLoop _ _) as [|[content' n]]; [done|].
  intros [= <- <-]. by case_bool_decide.
Qed.

Lemma loadTranslationFile_cases translationsDir relativePath w :
  loadTranslationFile parseTranslationConfig translationsDir relativePath w =
  match files w !! path_join [translationsDir; relativePath] with
  | None => Return None (logged w [TranslationFileNotFound relativePath])
  | Some Directory => Throw (EISDIR (path_join [translationsDir; relativePath])) w
  | Some (File text) =>
      match parseTranslationConfig text with
      | Some config => Return (Some config) w
      | None => Throw JSONSyntaxError w
      end
  end.
Proof.
  unfold loadTranslationFile, mbind, IO_bind, bind, existsSync, readFileSync.
  destruct (files w !! _) as [[text|]|] eqn:E.
  - rewrite bool_decide_eq_true_2 by done. simpl. rewrite E.
    by destruct (parseTranslationConfig text).
  - rewrite bool_decide_eq_true_2 by done. simpl. by rewrite E.
  - rewrite bool_decide_eq_false_2; [done|]. by intros [? ?].
Qed.

(** One document of the batch, case by case. *)
Lemma processFile_cases opencodeDir translationsDir stats file w :
  processFile parseTranslationConfig opencodeDir translationsDir stats file w =
  match files w !! path_join [translationsDir; file] with
  | None =>
      Return (bumpSkipped stats) (logged w [TranslationFileNotFound file])
  | Some Directory => Throw (EISDIR (path_join [translationsDir; file])) w
  | Some (File text) =>
      match parseTranslationConfig text with
      | None => Throw JSONSyntaxError w
      | Some config =>
          match applyTranslation opencodeDir config None w with
          | Return r w' => Return (classify stats r) (logged w' [statusLine r])
          | Throw e w' => Throw e w'
          end
      end
  end.
Proof.
  unfold processFile.
  unfold mbind at 1. unfold IO_bind at 1. unfold bind at 1.
  rewrite loadTranslationFile_cases.
  destruct (files w !! _) as [[text|]|]; try done.
  destruct (parseTranslationConfig text) as [config|]; [|done].
  unfold mbind, IO_bind, bind.
  destruct (applyTranslation opencodeDir config None w) as [r w'|e w']; [|done].
  unfold classify, statusLine. destruct (ApplicationResult.skipped r); [done|].
  by case_bool_decide.
Qed.

Lemma processFile_tally opencodeDir translationsDir stats file w stats' w' :
  processFile parseTranslationConfig opencodeDir translationsDir stats file w = Return stats' w' →
  ∃ l, console w' = console w ++ [l] ∧ isOutcome l = true
       ∧ stats' = tallyLine stats l.
Proof.
  rewrite processFile_cases.
  destruct (files w !! _) as [[text|]|]; try done.
  - destruct (parseTranslationConfig text) as [config|]; [|done].
    destruct (applyTranslation _ _ _ _) as [r w1|] eqn:E; [|done].
    intros [= <- <-]. exists (statusLine r). simpl.
    rewrite (applyTranslation_console _ _ _ _ _ _ E).
    split; [done|]. split; [apply statusLine_outcome | apply classify_statusLine].
  - intros [= <- <-]. by exists (TranslationFileNotFound file).
Qed.

Lemma processFiles_tally opencodeDir translationsDir files stats w stats' w' :
  processFiles parseTranslationConfig opencodeDir translationsDir files stats w = Return stats' w' →
  ∃ ls, console w' = console w ++ ls ∧ outcomes ls = ls
        ∧ length ls = length files ∧ stats' = foldl tallyLine stats ls.
Proof.
  revert stats w. induction files as [|file files IH]; intros stats w.
  - intros [= <- <-]. exists []. by rewrite app_nil_r.
  - cbn [processFiles].
    intros (stats1 & w1 & H1 & H2)%bind_Return_inv.
    apply processFile_tally in H1 as (l & Hc1 & Hl & ->).
    apply IH in H2 as (ls & Hc2 & Hls & Hlen & ->).
    exists (l :: ls). rewrite Hc2, Hc1, <- app_assoc.
    split; [done|]. split; [|split; [simpl; lia | done]].
    unfold outcomes in *. rewrite filter_cons_True by done. by f_equal.
Qed.

Lemma processCategory_tally opencodeDir translationsDir category files stats
    w stats' w' :
  processCategory parseTranslationConfig opencodeDir translationsDir category files stats w
  = Return stats' w' →
  ∃ ls, console w' = console w ++ ls
        ∧ length (outcomes ls) = length (default [] files)
        ∧ stats' = foldl tallyLine stats ls.
Proof.
  destruct files as [files|]; simpl.
  - unfold processModule.
    intros ([] & w1 & H1 & H2)%bind_Return_inv.
    rewrite console_log_logged in H1. injection H1 as <-.
    apply bind_Return_inv in H2 as (stats1 & w2 & H2 & H3).
    apply processFiles_tally in H2 as (ls & Hc & Hls & Hlen & ->).
    apply bind_Return_inv in H3 as ([] & w3 & H3 & H4).
    rewrite console_log_logged in H3. injection H3 as <-.
    injection H4 as <- <-.
    exists (Category category :: ls ++ [Blank]). simpl. rewrite Hc. simpl.
    split; [by rewrite <- !app_assoc|]. split.
    + unfold outcomes in *.
      rewrite filter_cons_False, filter_app, Hls, filter_cons_False by done.
      by rewrite filter_nil, app_nil_r.
    + by rewrite foldl_app.
  - intros [= <- <-]. exists []. by rewrite app_nil_r.
Qed.

(** The first three steps of [main] read the tree and write nothing. *)
Lemma getOpenCodeVersion_pure opencodeDir w :
  ∃ version, getOpenCodeVersion parsePackageVersion opencodeDir w = Return version w.
Proof.
  unfold getOpenCodeVersion, try_catch, mbind, IO_bind, bind,
    existsSync, readFileSync.
  destruct (files w !! _) as [[text|]|] eqn:E.
  - rewrite bool_decide_eq_true_2 by done. simpl. rewrite E.
    destruct (parsePackageVersion text); by eexists.
  - rewrite bool_decide_eq_true_2 by done. simpl. rewrite E. by eexists.
  - rewrite bool_decide_eq_false_2; [by eexists|]. by intros [? ?].
Qed.

Lemma getTranslationsDir_cases w :
  getTranslationsDir scriptDir w =
  let translationsDir := path_join [scriptDir; js "translations"] in
  match files w !! translationsDir with
  | Some _ => Return translationsDir w
  | None => Throw (TranslationsDirectoryNotFound translationsDir) w
  end.
Proof.
  unfold getTranslationsDir, mbind, IO_bind, bind, existsSync.
  by destruct (files w !! _).
Qed.

Lemma loadModuleConfig_cases translationsDir w :
  loadModuleConfig parseModuleConfig translationsDir w =
  let configPath := path_join [translationsDir; js "config.json"] in
  match files w !! configPath with
  | None => Throw (ModuleConfigNotFound configPath) w
  | Some Directory => Throw (EISDIR configPath) w
  | Some (File text) =>
      match parseModuleConfig text with
      | Some config => Return config w
      | None => Throw JSONSyntaxError w
      end
  end.
Proof.
  unfold loadModuleConfig, mbind, IO_bind, bind, existsSync, readFileSync.
  destruct (files w !! _) as [[text|]|] eqn:E; simpl; rewrite ?E; try done.
  by destruct (parseModuleConfig text).
Qed.

(** What a completed run of [main] printed and returned: the header with
    the verdict on the versions, the report of the batch, the summary; the
    statistics are the tally of the report, which has one status line for
    each document of the manifest. *)
Lemma main_report opencodeDir w stats w' :
  main scriptDir parseTranslationConfig parseModuleConfig parsePackageVersion
    opencodeDir w = Return stats w' →
  ∃ currentVersion text moduleConfig body,
    let translationsDir := path_join [scriptDir; js "translations"] in
    let version := ModuleConfig.version moduleConfig in
    getOpenCodeVersion parsePackageVersion opencodeDir w = Return currentVersion w
    ∧ files w !! path_join [translationsDir; js "config.json"] = Some (File text)
    ∧ parseModuleConfig text = Some moduleConfig
    ∧ console w'
      = console w
        ++ [OpenCodeVersion currentVersion; TranslationsDirectory translationsDir;
            TranslationConfigVersion version;
            if bool_decide (currentVersion ≠ version)
            then VersionMismatch currentVersion version
            else VersionMatch currentVersion;
            ApplyingTranslations]
        ++ body
        ++ [Summary (Stats.filesProcessed stats) (Stats.filesSkipped stats)
              (Stats.totalReplacements stats);
            LocalizationComplete]
    ∧ stats = tally body
    ∧ length (outcomes body) = length (documents (ModuleConfig.modules moduleConfig)).
Proof.
  unfold main. intros H.
  apply bind_Return_inv in H as (currentVersion & w1 & H1 & H).
  destruct (getOpenCodeVersion_pure opencodeDir w) as [v Hv].
  rewrite Hv in H1. injection H1 as <- <-.
  apply bind_Return_inv in H as ([] & w1 & H1 & H).
  rewrite console_log_logged in H1. injection H1 as <-.
  apply bind_Return_inv in H as (translationsDir & w1 & H1 & H).
  rewrite getTranslationsDir_cases in H1. cbv zeta in H1. simpl files in H1.
  destruct (files w !! path_join [scriptDir; js "translations"]); [|done].
  injection H1 as <- <-.
  apply bind_Return_inv in H as ([] & w1 & H1 & H).
  rewrite console_log_logged in H1. injection H1 as <-.
  apply bind_Return_inv in H as (moduleConfig & w1 & H1 & H).
  rewrite loadModuleConfig_cases in H1. cbv zeta in H1. simpl files in H1.
  destruct (files w !! path_join [path_join [scriptDir; js "translations"];
                                  js "config.json"])
    as [[text|]|] eqn:Econfig; try done.
  destruct (parseModuleConfig text) as [config|] eqn:Eparse; [|done].
  injection H1 as <- <-.
  apply bind_Return_inv in H as ([] & w1 & H1 & H).
  rewrite console_log_logged in H1. injection H1 as <-.
  apply bind_Return_inv in H as ([] & w1 & H1 & H).
  assert (w1 = logged
                 (logged (logged (logged w [OpenCodeVersion v])
                            [TranslationsDirectory
                               (path_join [scriptDir; js "translations"])])
                    [TranslationConfigVersion (ModuleConfig.version config)])
                 [if bool_decide (v ≠ ModuleConfig.version config)
                  then VersionMismatch v (ModuleConfig.version config)
                  else VersionMatch v]) as ->.
  { case_bool_decide; rewrite console_log_logged in H1; by injection H1 as <-. }
  clear H1.
  apply bind_Return_inv in H as ([] & w1 & H1 & H).
  rewrite console_log_logged in H1. injection H1 as <-.
  cbv zeta in H.
  apply bind_Return_inv in H as (stats1 & w1 & H1 & H).
  apply processCategory_tally in H1 as (ls1 & Hc1 & Hn1 & ->).
  apply bind_Return_inv in H as (stats2 & w2 & H2 & H).
  apply processCategory_tally in H2 as (ls2 & Hc2 & Hn2 & ->).
  apply bind_Return_inv in H as (stats3 & w3 & H3 & H).
  apply processCategory_tally in H3 as (ls3 & Hc3 & Hn3 & ->).
  apply bind_Return_inv in H as (stats4 & w4 & H4 & H).
  apply processCategory_tally in H4 as (ls4 & Hc4 & Hn4 & ->).
  apply bind_Return_inv in H as (stats5 & w5 & H5 & H).
  apply processCategory_tally in H5 as (ls5 & Hc5 & Hn5 & ->).
  apply bind_Return_inv in H as ([] & w6 & H6 & H).
  rewrite console_log_logged in H6. injection H6 as <-.
  apply bind_Return_inv in H as ([] & w7 & H7 & H).
  rewrite console_log_logged in H7. injection H7 as <-.
  injection H as <- <-.
  exists v, text, config, (ls1 ++ ls2 ++ ls3 ++ ls4 ++ ls5). cbv zeta.
  split; [done|]. split; [done|]. split; [done|]. split; [|split].
  - simpl. rewrite Hc5, Hc4, Hc3, Hc2, Hc1. simpl.
    rewrite <- !app_assoc. simpl. done.
  - unfold tally. by rewrite !foldl_app.
  - unfold outcomes, documents in *. rewrite !filter_app, !length_app. lia.
Qed.

End Batch.

(** ** Runs that differ in what they print only *)

(** Two worlds with the same tree and the same journal of writes. *)
Definition sameTree (w1 w2 : world) : Prop :=
  files w1 = files w2 ∧ writes w1 = writes w2.

Definition sameOutcome {A B} (R : A → B → Prop) (r1 : result A) (r2 : result B)
  : Prop :=
  match r1, r2 with
  | Return a w1, Return b w2 => R a b ∧ sameTree w1 w2
  | Throw e1 w1, Throw e2 w2 => e1 = e2 ∧ sameTree w1 w2
  | _, _ => False
  end.

Definition related {A B} (R : A → B → Prop) (c1 : IO A) (c2 : IO B) : Prop :=
  ∀ w1 w2, sameTree w1 w2 → sameOutcome R (c1 w1) (c2 w2).

Section Related.

Lemma related_ret {A B} (R : A → B → Prop) a b : R a b → related R (ret a) (ret b).
Proof. intros HR w1 w2 Hw. by split. Qed.

Lemma related_throw {A B} (R : A → B → Prop) e : related R (throw e) (throw e).
Proof. intros w1 w2 Hw. by split. Qed.

Lemma related_bind {A A' B B'} (R1 : A → A' → Prop) (R2 : B → B' → Prop)
    (c1 : IO A) (c2 : IO A') (k1 : A → IO B) (k2 : A' → IO B') :
  related R1 c1 c2 →
  (∀ a a', R1 a a' → related R2 (k1 a) (k2 a')) →
  related R2 (c1 ≫= k1) (c2 ≫= k2).
Proof.
  intros Hc Hk w1 w2 Hw. specialize (Hc w1 w2 Hw).
  unfold mbind, IO_bind, bind.
  destruct (c1 w1) as [a w1'|e1 w1'], (c2 w2) as [a' w2'|e2 w2']; try done.
  destruct Hc as [HR Hw']. by apply Hk.
Qed.

Lemma related_console_log l1 l2 :
  related (λ _ _, True) (console_log l1) (console_log l2).
Proof. intros w1 w2 [Hf Hw]. by repeat split. Qed.

Lemma related_existsSync p : related eq (existsSync p) (existsSync p).
Proof. intros w1 w2 [Hf Hw]. unfold existsSync. rewrite Hf. by repeat split. Qed.

Lemma related_readFileSync p : related eq (readFileSync p) (readFileSync p).
Proof.
  intros w1 w2 [Hf Hw]. unfold readFileSync. rewrite Hf.
  by destruct (files w2 !! p) as [[content|]|].
Qed.

Lemma related_applyTranslation opencodeDir config relativeFilePath :
  related eq (applyTranslation opencodeDir config relativeFilePath)
    (applyTranslation opencodeDir config relativeFilePath).
Proof.
  intros w1 w2 [Hf Hw]. rewrite !applyTranslation_cases, Hf.
  destruct (or_else _ _) as [[|c targetFile]|]; try done.
  destruct (files w2 !! _) as [[content|]|]; try done.
  destruct (replaceLoop _ _) as [|[content' n]]; [done|].
  split; [done|]. case_bool_decide; [|done].
  split; simpl; congruence.
Qed.

Section Decoders.

Variable scriptDir : jsstring.
Variable parseTranslationConfig : jsstring → option TranslationConfig.t.
Variables parseModuleConfig parseModuleConfig' : jsstring → option ModuleConfig.t.
Variables parsePackageVersion parsePackageVersion' : jsstring → option jsstring.

Hypothesis same_modules : ∀ text,
  ModuleConfig.modules <$> parseModuleConfig text
  = ModuleConfig.modules <$> parseModuleConfig' text.

Lemma related_loadTranslationFile translationsDir relativePath :
  related eq (loadTranslationFile parseTranslationConfig translationsDir relativePath)
    (loadTranslationFile parseTranslationConfig translationsDir relativePath).
Proof.
  unfold loadTranslationFile.
  eapply related_bind; [apply related_existsSync|]. intros found ? <-.
  destruct found; simpl.
  - eapply related_bind; [apply related_readFileSync|]. intros text ? <-.
    destruct (parseTranslationConfig text).
    + by apply related_ret.
    + apply related_throw.
  - eapply related_bind; [apply related_console_log|]. intros _ _ _.
    by apply related_ret.
Qed.

Lemma related_processFile opencodeDir translationsDir stats file :
  related eq (processFile parseTranslationConfig opencodeDir translationsDir stats file)
    (processFile parseTranslationConfig opencodeDir translationsDir stats file).
Proof.
  unfold processFile.
  eapply related_bind; [apply related_loadTranslationFile|]. intros config ? <-.
  destruct config as [config|]; [|by apply related_ret].
  eapply related_bind; [apply related_applyTranslation|]. intros r ? <-.
  destruct (ApplicationResult.skipped r); [|case_bool_decide];
    (eapply related_bind; [apply related_console_log|]; intros _ _ _;
     by apply related_ret).
Qed.

Lemma related_processFiles opencodeDir translationsDir files stats :
  related eq (processFiles parseTranslationConfig opencodeDir translationsDir files stats)
    (processFiles parseTranslationConfig opencodeDir translationsDir files stats).
Proof.
  revert stats. induction files as [|file files IH]; intros stats.
  - by apply related_ret.
  - cbn [processFiles].
    eapply related_bind; [apply related_processFile|]. intros stats' ? <-.
    apply IH.
Qed.

Lemma related_processCategory opencodeDir translationsDir category files stats :
  related eq
    (processCategory parseTranslationConfig opencodeDir translationsDir category
       files stats)
    (processCategory parseTranslationConfig opencodeDir translationsDir category
       files stats).
Proof.
  destruct files as [files|]; [|by apply related_ret].
  unfold processCategory, processModule.
  eapply related_bind; [apply related_console_log|]. intros _ _ _.
  eapply related_bind; [apply related_processFiles|]. intros stats' ? <-.
  eapply related_bind; [apply related_console_log|]. intros _ _ _.
  by apply related_ret.
Qed.

(** Whatever the tree declares as its version, reading it succeeds and
    changes nothing. *)
Lemma related_getOpenCodeVersion opencodeDir :
  related (λ _ _, True) (getOpenCodeVersion parsePackageVersion opencodeDir)
    (getOpenCodeVersion parsePackageVersion' opencodeDir).
Proof.
  intros w1 w2 Hw.
  destruct (getOpenCodeVersion_pure parsePackageVersion opencodeDir w1) as [v1 ->].
  destruct (getOpenCodeVersion_pure parsePackageVersion' opencodeDir w2) as [v2 ->].
  by split.
Qed.

Lemma related_getTranslationsDir :
  related eq (getTranslationsDir scriptDir) (getTranslationsDir scriptDir).
Proof.
  intros w1 w2 [Hf Hw]. rewrite !getTranslationsDir_cases. cbv zeta. rewrite Hf.
  by destruct (files w2 !! _).
Qed.

Lemma related_loadModuleConfig translationsDir :
  related (λ c1 c2, ModuleConfig.modules c1 = ModuleConfig.modules c2)
    (loadModuleConfig parseModuleConfig translationsDir)
    (loadModuleConfig parseModuleConfig' translationsDir).
Proof.
  intros w1 w2 [Hf Hw]. rewrite !loadModuleConfig_cases. cbv zeta. rewrite Hf.
  destruct (files w2 !! _) as [[text|]|]; try done.
  specialize (same_modules text).
  destruct (parseModuleConfig text), (parseModuleConfig' text); simpl in *;
    try done.
  by injection same_modules as ->.
Qed.

(** The versions reach the console and nothing else. *)
Lemma related_main opencodeDir :
  related eq
    (main scriptDir parseTranslationConfig parseModuleConfig parsePackageVersion
       opencodeDir)
    (main scriptDir parseTranslationConfig parseModuleConfig' parsePackageVersion'
       opencodeDir).
Proof.
  unfold main.
  eapply related_bind; [apply related_getOpenCodeVersion|]. intros v v' _.
  eapply related_bind; [apply related_console_log|]. intros _ _ _.
  eapply related_bind; [apply related_getTranslationsDir|]. intros dir ? <-.
  eapply related_bind; [apply related_console_log|]. intros _ _ _.
  eapply related_bind; [apply related_loadModuleConfig|]. intros c c' Hmodules.
  eapply related_bind; [apply related_console_log|]. intros _ _ _.
  eapply related_bind.
  { instantiate (1 := λ _ _, True).
    do 2 case_bool_decide; apply related_console_log. }
  intros _ _ _.
  eapply related_bind; [apply related_console_log|]. intros _ _ _.
  cbv zeta. rewrite <- Hmodules.
  eapply related_bind; [apply related_processCategory|]. intros stats1 ? <-.
  eapply related_bind; [apply related_processCategory|]. intros stats2 ? <-.
  eapply related_bind; [apply related_processCategory|]. intros stats3 ? <-.
  eapply related_bind; [apply related_processCategory|]. intros stats4 ? <-.
  eapply related_bind; [apply related_processCategory|]. intros stats5 ? <-.
  eapply related_bind; [apply related_console_log|]. intros _ _ _.
  eapply related_bind; [apply related_console_log|]. intros _ _ _.
  by apply related_ret.
Qed.

End Decoders.

End Related.
